(** * Soniox Web Voice: the PCM encoder worker and the RecordTranscribe session

    A shallow embedding of

    - the [pcm_s16leEncoder] worker of the audio recorder polyfill
      ([encode], [dump], [onmessage]), and
    - the [RecordTranscribe] class of [src/web_voice.js]: its state machine,
      the close-reason pattern [StatusMessageRegex] and the result merge
      [_updateResult].

    Parts I and II are the embedding; Parts III and IV are the properties
    proved about it. *)

From Stdlib Require Import List ZArith Lia Bool Arith String Ascii.
From Stdlib.Strings Require Import Byte.
From Stdlib Require Import QArith Qround DecimalString.
Import ListNotations.

Close Scope Q_scope.
Local Open Scope nat_scope.

(* ================================================================== *)
(** * Part I.  The encoder worker ([pcm_s16leEncoder])                  *)
(* ================================================================== *)

Module Encoder.

(** A [Uint8Array] is its sequence of bytes. *)
Definition Uint8Array := list byte.

(** [buffer.length] as the JavaScript number the comparisons use. *)
Definition byteLength (buffer : Uint8Array) : Z :=
  Z.of_nat (List.length buffer).

(** Sum of the lengths of a run of buffers. *)
Definition totalLength (bs : list Uint8Array) : Z :=
  fold_right (fun b acc => (byteLength b + acc)%Z) 0%Z bs.

(** ** [encode]

    Samples are the finite values of a [Float32Array]; each is a dyadic
    rational, so [buffer[i] * 32768] is exact and is modelled in [Q]. *)

Definition quantize (sample : Q) : Z :=
  Z.max (-32768) (Z.min 32767 (Qfloor (sample * 32768)%Q)).

Definition byte_of_Z (z : Z) : byte :=
  match Byte.of_N (Z.to_N (z mod 256)) with
  | Some b => b
  | None => x00
  end.

(** [view.setInt16(byteOffset, sample, true)]: two's complement, low byte
    first. *)
Definition setInt16_le (sample : Z) : list byte :=
  [byte_of_Z sample; byte_of_Z (sample / 256)].

Definition encode (buffer : list Q) (buffers : list Uint8Array)
  : list Uint8Array :=
  buffers ++ [flat_map (fun x => setInt16_le (quantize x)) buffer].

(** ** [dump]

    The inner [while]: [rest] is [buffers] from index
    [buffersPos + numBuffers] on; the result is the final
    [(numBuffers, length)]. *)
Fixpoint scan (maxOutputSize : Z) (rest : list Uint8Array)
         (numBuffers : nat) (len : Z) : nat * Z :=
  match rest with
  | [] => (numBuffers, len)
  | buffer :: rest' =>
      if (0 <? numBuffers) && (len + byteLength buffer >? maxOutputSize)%Z
      then (numBuffers, len)
      else scan maxOutputSize rest' (S numBuffers) (len + byteLength buffer)%Z
  end.

(** The outer [while].  Every iteration advances [buffersPos], which the
    fuel accounts for; [None] is "out of fuel" and is shown below never to
    happen with the fuel [dump] supplies. *)
Fixpoint dump_loop (fuel : nat) (maxOutputSize : Z) (buffers : list Uint8Array)
         (buffersPos : nat) (outputBuffers : list Uint8Array)
  : option (list Uint8Array) :=
  if buffersPos <? List.length buffers then
    match fuel with
    | O => None
    | S fuel' =>
        let '(numBuffers, _) :=
          scan maxOutputSize (skipn buffersPos buffers) 0 0%Z in
        let array :=
          List.concat (firstn numBuffers (skipn buffersPos buffers)) in
        dump_loop fuel' maxOutputSize buffers (buffersPos + numBuffers)
                  (outputBuffers ++ [array])
    end
  else Some outputBuffers.

(** [dump(maxOutputSize)]: the chunks returned and the new value of the
    worker's [buffers] variable. *)
Definition dump (maxOutputSize : Z) (buffers : list Uint8Array)
  : option (list Uint8Array * list Uint8Array) :=
  match dump_loop (List.length buffers) maxOutputSize buffers 0 [] with
  | Some outputBuffers => Some (outputBuffers, [])
  | None => None
  end.

(** ** [onmessage] *)

Inductive command : Type :=
| Encode (samples : list Q)
| Dump (maxOutputSize : Z)
| Reset.

(** One command: the messages posted back and the new [buffers]. *)
Definition onmessage (cmd : command) (buffers : list Uint8Array)
  : option (list Uint8Array * list Uint8Array) :=
  match cmd with
  | Encode samples => Some ([], encode samples buffers)
  | Dump maxOutputSize => dump maxOutputSize buffers
  | Reset => Some ([], [])
  end.

(** ** What a greedy partition is *)

(** Each group but the last was closed because the first buffer of the next
    group would have overflowed it. *)
Fixpoint greedy (maxOutputSize : Z) (groups : list (list Uint8Array)) : Prop :=
  match groups with
  | g :: (((next :: _) :: _) as tl) =>
      (totalLength g + byteLength next > maxOutputSize)%Z
      /\ greedy maxOutputSize tl
  | _ :: tl => greedy maxOutputSize tl
  | [] => True
  end.

(** ** Reading the encoded samples back *)

(** The bytes [encode] produces for one block of samples. *)
Definition pcm (buffer : list Q) : Uint8Array :=
  flat_map (fun x => setInt16_le (quantize x)) buffer.

(** [view.getInt16(byteOffset, true)] on the two bytes at [byteOffset]:
    the reader that matches [setInt16_le]. *)
Definition getInt16_le (lo hi : byte) : Z :=
  let u := (Z.of_N (Byte.to_N lo) + 256 * Z.of_N (Byte.to_N hi))%Z in
  if (u <? 32768)%Z then u else (u - 65536)%Z.

(** All the 16-bit samples of a buffer, in order. *)
Fixpoint samples16 (bytes : Uint8Array) : list Z :=
  match bytes with
  | lo :: hi :: rest => getInt16_le lo hi :: samples16 rest
  | _ => []
  end.

(** ** The worker over a sequence of messages *)

(** The messages are handled one by one in the order they arrive; the
    result is everything posted back, in order, and the final [buffers]. *)
Fixpoint process (cmds : list command) (buffers : list Uint8Array)
  : option (list Uint8Array * list Uint8Array) :=
  match cmds with
  | [] => Some ([], buffers)
  | cmd :: cmds' =>
      match onmessage cmd buffers with
      | Some (posted, buffers') =>
          match process cmds' buffers' with
          | Some (posted', buffers'') => Some (posted ++ posted', buffers'')
          | None => None
          end
      | None => None
      end
  end.

(** The blocks a sequence of messages asks to encode, in order. *)
Fixpoint encoded (cmds : list command) : list (list Q) :=
  match cmds with
  | [] => []
  | Encode samples :: cmds' => samples :: encoded cmds'
  | _ :: cmds' => encoded cmds'
  end.

Definition is_reset (cmd : command) : bool :=
  match cmd with
  | Reset => true
  | _ => false
  end.

End Encoder.

(* ================================================================== *)
(** * Part I, continued.  The [MediaRecorder] of the polyfill           *)
(* ================================================================== *)

Module Polyfill.
Import Encoder.
Local Open Scope string_scope.
Local Open Scope list_scope.

(** [recorder.state]; ['paused'] is documented but never assigned. *)
Inductive RecordingState : Set := inactive | recording.

(** The module-level [context] and [processor], created on first use. *)
Record Page : Set := {
  context : bool;
  processor : bool
}.

(** The fields of a recorder that its methods assign: [maxOutputSize] is
    [undefined] until [start] and whenever [start] was given none;
    [slicing] is the interval in force; [clone] and [input] tell whether
    the cloned stream and its source node are held. *)
Record MediaRecorder : Set := {
  state : RecordingState;
  maxOutputSize : option Z;
  slicing : option Z;
  clone : bool;
  input : bool
}.

(** [new MediaRecorder(stream)]. *)
Definition new_MediaRecorder : MediaRecorder :=
  {| state := inactive; maxOutputSize := None; slicing := None;
     clone := false; input := false |}.

(** The events dispatched on [this.em]. *)
Inductive Event : Type :=
| StartEvent
| StopEvent
| DataAvailableEvent (data : Uint8Array)
| ErrorEvent (message : string).

(** The messages posted to the worker. *)
Inductive WorkerMessage : Type :=
| EncodeMessage (samples : list Q)
| DumpMessage (maxOutputSize : option Z)
| ResetMessage.

(** What a method does to the outside, in program order. *)
Inductive action : Type :=
| DispatchEvent (ev : Event)
| PostMessage (m : WorkerMessage)
| NewAudioContext
| CloneStream
| CreateMediaStreamSource
| CreateScriptProcessor
| SetOnAudioProcess
| ConnectInput
| ConnectDestination
| SetInterval (timeslice : Z)
| CloneTracksStop
| DisconnectDestination
| DisconnectInput
| ClearInterval
| TerminateWorker.

(** [error(method)]. *)
Definition error (method : string) : Event :=
  ErrorEvent ("Wrong state for " ++ method)%string.

(** [if (timeslice)]: given and not zero. *)
Definition truthy (timeslice : option Z) : bool :=
  match timeslice with
  | Some t => negb (t =? 0)%Z
  | None => false
  end.

Definition requestData (r : MediaRecorder) : list action :=
  match state r with
  | inactive => [DispatchEvent (error "requestData")]
  | recording => [PostMessage (DumpMessage (maxOutputSize r))]
  end.

Definition start (timeslice maxOutput : option Z) (p : Page)
           (r : MediaRecorder) : Page * MediaRecorder * list action :=
  match state r with
  | recording => (p, r, [DispatchEvent (error "start")])
  | inactive =>
      let acts1 := if context p then [] else [NewAudioContext] in
      let acts2 := [CloneStream; CreateMediaStreamSource] in
      let acts3 := if processor p then [] else [CreateScriptProcessor] in
      let acts4 := [SetOnAudioProcess; ConnectInput; ConnectDestination;
                    DispatchEvent StartEvent] in
      let acts5 := match timeslice with
                   | Some t => if truthy timeslice then [SetInterval t] else []
                   | None => []
                   end in
      ({| context := true; processor := true |},
       {| state := recording;
          maxOutputSize := maxOutput;
          slicing := if truthy timeslice then timeslice else slicing r;
          clone := true;
          input := true |},
       acts1 ++ acts2 ++ acts3 ++ acts4 ++ acts5)
  end.

Definition stop (r : MediaRecorder) : MediaRecorder * list action :=
  match state r with
  | inactive => (r, [DispatchEvent (error "stop")])
  | recording =>
      ({| state := inactive;
          maxOutputSize := maxOutputSize r;
          slicing := slicing r;
          clone := false;
          input := false |},
       requestData r
       ++ [PostMessage ResetMessage; CloneTracksStop; DisconnectDestination;
           DisconnectInput; ClearInterval])
  end.

Definition terminateWorker : list action := [TerminateWorker].

(** [processor.onaudioprocess], with the channel data of the event. *)
Definition onaudioprocess (samples : list Q) (r : MediaRecorder)
  : list action :=
  match state r with
  | recording => [PostMessage (EncodeMessage samples)]
  | inactive => []
  end.

(** The function given to [setInterval]. *)
Definition onInterval (r : MediaRecorder) : list action :=
  match state r with
  | recording => requestData r
  | inactive => []
  end.

(** The listener of the worker's messages, set up by the constructor. *)
Definition onWorkerMessage (data : Uint8Array) (r : MediaRecorder)
  : list action :=
  DispatchEvent (DataAvailableEvent data)
  :: match state r with
     | inactive => [DispatchEvent StopEvent]
     | recording => []
     end.

(** ** A recorder in use *)

Inductive call : Type :=
| Start (timeslice maxOutput : option Z)
| Stop
| RequestData
| AudioProcess (samples : list Q)
| Interval
| WorkerMessageIn (data : Uint8Array).

Definition perform (c : call) (pr : Page * MediaRecorder)
  : Page * MediaRecorder * list action :=
  let (p, r) := pr in
  match c with
  | Start timeslice maxOutput => start timeslice maxOutput p r
  | Stop => let (r', acts) := stop r in (p, r', acts)
  | RequestData => (p, r, requestData r)
  | AudioProcess samples => (p, r, onaudioprocess samples r)
  | Interval => (p, r, onInterval r)
  | WorkerMessageIn data => (p, r, onWorkerMessage data r)
  end.

Fixpoint performAll (cs : list call) (pr : Page * MediaRecorder)
  : Page * MediaRecorder * list action :=
  match cs with
  | [] => (pr, [])
  | c :: cs' =>
      let '(p1, r1, acts1) := perform c pr in
      let '(p2, r2, acts2) := performAll cs' (p1, r1) in
      (p2, r2, acts1 ++ acts2)
  end.

(** The messages among the actions, as the worker receives them; a [dump]
    with no limit is outside the worker model. *)
Fixpoint posted (acts : list action) : option (list command) :=
  match acts with
  | [] => Some []
  | PostMessage m :: acts' =>
      match m, posted acts' with
      | EncodeMessage samples, Some cmds => Some (Encode samples :: cmds)
      | DumpMessage (Some limit), Some cmds => Some (Dump limit :: cmds)
      | ResetMessage, Some cmds => Some (Reset :: cmds)
      | _, _ => None
      end
  | _ :: acts' => posted acts'
  end.

(** The events among the actions. *)
Fixpoint dispatched (acts : list action) : list Event :=
  match acts with
  | [] => []
  | DispatchEvent ev :: acts' => ev :: dispatched acts'
  | _ :: acts' => dispatched acts'
  end.

(** The blocks a sequence of calls hands to [onaudioprocess]. *)
Fixpoint heard (cs : list call) : list (list Q) :=
  match cs with
  | [] => []
  | AudioProcess samples :: cs' => samples :: heard cs'
  | _ :: cs' => heard cs'
  end.

(** The message a capture call stands for while recording with the limit
    [limit]. *)
Definition captured (limit : Z) (c : call) : list command :=
  match c with
  | AudioProcess samples => [Encode samples]
  | Interval => [Dump limit]
  | _ => []
  end.

(** Calls that are the audio callback or the interval timer. *)
Definition is_capture (c : call) : bool :=
  match c with
  | AudioProcess _ | Interval => true
  | _ => false
  end.

(** How many cloned streams the actions open, and how many they stop. *)
Fixpoint clones (acts : list action) : nat :=
  match acts with
  | [] => 0
  | CloneStream :: acts' => S (clones acts')
  | _ :: acts' => clones acts'
  end.

Fixpoint cloneStops (acts : list action) : nat :=
  match acts with
  | [] => 0
  | CloneTracksStop :: acts' => S (cloneStops acts')
  | _ :: acts' => cloneStops acts'
  end.

End Polyfill.

(* ================================================================== *)
(** * Part II.  The RecordTranscribe session ([web_voice.js])           *)
(* ================================================================== *)

Module WebVoice.
Local Open Scope string_scope.
Local Open Scope list_scope.
Local Open Scope nat_scope.

(** JavaScript strings are sequences of 16-bit code units; the model keeps
    the code units below 256, which is what [string] holds. *)

Definition DefaultWebSocketUri : string :=
  "wss://api.soniox.com/transcribe-websocket".
Definition DefaultApiKey : string := "demo".
Definition RecorderTimeSlice_ms : Z := 100.
Definition MaxOutputSize_B : Z := 60000.

(** ** [StatusMessageRegex]

    The pattern is, in order: the start of the input; a literal [<]; group 1,
    one or more characters of the class a-z, A-Z, 0-9, underscore, hyphen; a
    literal [>]; any number of spaces; group 2, which is either a character
    other than a space or the end of the input, then any characters; the end
    of the input.  It has no flags: the end-of-input anchor is the end of the
    whole string and "any character" excludes the line terminators. *)

(** The character class of group 1. *)
Definition is_token_char (c : ascii) : bool :=
  let n := nat_of_ascii c in
  (((97 <=? n) && (n <=? 122)) || ((65 <=? n) && (n <=? 90))
   || ((48 <=? n) && (n <=? 57)) || (n =? 95) || (n =? 45))%nat.

(** The line terminators: of the four of ECMAScript, LF and CR are the
    ones below 256. *)
Definition is_line_terminator (c : ascii) : bool :=
  let n := nat_of_ascii c in ((n =? 10) || (n =? 13))%nat.

(** Group 1, greedy: the longest run of token characters and what follows
    it. *)
Fixpoint take_token (s : string) : string * string :=
  match s with
  | String c s' =>
      if is_token_char c
      then let (tok, rest) := take_token s' in (String c tok, rest)
      else ("", s)
  | EmptyString => ("", "")
  end.

(** The spaces after [>], greedy. *)
Fixpoint skip_spaces (s : string) : string :=
  match s with
  | String c s' => if Ascii.eqb c " " then skip_spaces s' else s
  | EmptyString => ""
  end.

(** Any characters up to the end of the input: the rest holds no line
    terminator. *)
Fixpoint dots_to_end (s : string) : bool :=
  match s with
  | String c s' => negb (is_line_terminator c) && dots_to_end s'
  | EmptyString => true
  end.

(** [StatusMessageRegex.exec(reason)]: [None] for [null], otherwise the
    groups [match[1]] and [match[2]]. *)
Definition StatusMessageRegex_exec (reason : string)
  : option (string * string) :=
  match reason with
  | String c0 s1 =>
      if Ascii.eqb c0 "<" then
        match take_token s1 with
        | (String _ _ as status, String c1 s2) =>
            if Ascii.eqb c1 ">" then
              let message := skip_spaces s2 in
              match message with
              | EmptyString => Some (status, message)
              | String _ tail =>
                  if dots_to_end tail then Some (status, message) else None
              end
            else None
        | _ => None
        end
      else None
  | EmptyString => None
  end.

Definition is_space (c : ascii) : bool := Ascii.eqb c " ".

(** What stops a greedy run: the end of the input or a character outside
    the class. *)
Definition stops (p : ascii -> bool) (s : string) : Prop :=
  match s with
  | String c _ => p c = false
  | EmptyString => True
  end.

Definition all_chars (p : ascii -> bool) (s : string) : Prop :=
  Forall (fun c => p c = true) (list_ascii_of_string s).

(** The language of the pattern, read off the regular expression: the
    strings [<status>], then spaces, then a message that is empty or starts
    with a non-space and goes to the end without a line terminator. *)
Definition StatusMessage_shape (reason status message : string) : Prop :=
  exists spaces : string,
    reason = ("<" ++ status ++ ">" ++ spaces ++ message)%string
    /\ status <> ""
    /\ all_chars is_token_char status
    /\ all_chars is_space spaces
    /\ (message = ""
        \/ exists c tail, message = String c tail
                          /\ c <> " "%char /\ dots_to_end tail = true).

(** ** States *)

Inductive State : Set :=
| Init | RequestingMedia | OpeningWebSocket | Running | Finishing
| FinishingEarly | Finished | Error | Canceled.

Definition State_eqb (a b : State) : bool :=
  match a, b with
  | Init, Init | RequestingMedia, RequestingMedia
  | OpeningWebSocket, OpeningWebSocket | Running, Running
  | Finishing, Finishing | FinishingEarly, FinishingEarly
  | Finished, Finished | Error, Error | Canceled, Canceled => true
  | _, _ => false
  end.

Definition ToUserStateMap (st : State) : string :=
  match st with
  | Init => "Init"
  | RequestingMedia => "Starting"
  | OpeningWebSocket => "Starting"
  | Running => "Running"
  | Finishing => "Finishing"
  | FinishingEarly => "Finishing"
  | Finished => "Finished"
  | Error => "Error"
  | Canceled => "Canceled"
  end.

Definition isInactiveState (st : State) : bool :=
  State_eqb st Init || State_eqb st Finished
  || State_eqb st Error || State_eqb st Canceled.

Definition isWebSocketState (st : State) : bool :=
  State_eqb st OpeningWebSocket || State_eqb st Running
  || State_eqb st Finishing.

(** The terminal states; [Init] is inactive but not terminal. *)
Definition isTerminalState (st : State) : bool :=
  State_eqb st Finished || State_eqb st Error || State_eqb st Canceled.

(** ** Words and results *)

Record Word : Type := {
  text : string;
  start_ms : Z;
  duration_ms : Z;
  is_final : bool
}.

Record Result : Type := {
  words : list Word;
  final_proc_time_ms : Z;
  total_proc_time_ms : Z
}.

(** The JSON result frames of the service. *)
Module Wire.
Record Word : Type := { t : string; s : Z; d : Z }.
Record Response : Type := {
  fw : list Word;
  nfw : list Word;
  fpt : Z;
  tpt : Z
}.
End Wire.

Definition wordFromJson (jsWord : Wire.Word) (isFinal : bool) : Word :=
  {| text := Wire.t jsWord;
     start_ms := Wire.s jsWord;
     duration_ms := Wire.d jsWord;
     is_final := isFinal |}.

Definition resultFromResponse (response : Wire.Response) : Result :=
  let words0 : list Word := [] in
  let words1 :=
    fold_left (fun ws jsWord => ws ++ [wordFromJson jsWord true])
              (Wire.fw response) words0 in
  let words2 :=
    fold_left (fun ws jsWord => ws ++ [wordFromJson jsWord false])
              (Wire.nfw response) words1 in
  {| words := words2;
     final_proc_time_ms := Wire.fpt response;
     total_proc_time_ms := Wire.tpt response |}.

Definition initialResult : Result :=
  {| words := []; final_proc_time_ms := 0; total_proc_time_ms := 0 |}.

(** ** [_updateResult] *)

(** [words[words.length - 1]], when [words.length > 0]. *)
Definition lastWord (ws : list Word) : option Word :=
  match ws with
  | [] => None
  | _ :: _ => nth_error ws (List.length ws - 1)
  end.

(** The [while] loop popping the trailing non-final words.  Each iteration
    shortens [words], so [List.length words] iterations are enough
    ([pop_nonfinal_exit] below). *)
Fixpoint pop_nonfinal (fuel : nat) (ws : list Word) : list Word :=
  match fuel with
  | O => ws
  | S fuel' =>
      match lastWord ws with
      | Some w =>
          if negb (is_final w) then pop_nonfinal fuel' (removelast ws) else ws
      | None => ws
      end
  end.

Definition _updateResult (newResult : Result) (result : Result) : Result :=
  let ws := pop_nonfinal (List.length (words result)) (words result) in
  let ws := fold_left (fun acc word => acc ++ [word]) (words newResult) ws in
  {| words := ws;
     final_proc_time_ms := final_proc_time_ms newResult;
     total_proc_time_ms := total_proc_time_ms newResult |}.

(** The loop condition of [_updateResult] is false on [ws]. *)
Definition settled (ws : list Word) : Prop :=
  match lastWord ws with
  | Some w => is_final w = true
  | None => True
  end.

(** Words in the order "final words, then one run of non-final words". *)
Definition ordered (ws : list Word) : Prop :=
  exists F NF, ws = F ++ NF
               /\ Forall (fun w => is_final w = true) F
               /\ Forall (fun w => is_final w = false) NF.

(** The accumulated result once the frames [rs] have been merged, oldest
    first, into the initial result. *)
Definition merged (rs : list Wire.Response) : Result :=
  fold_left (fun result response =>
               _updateResult (resultFromResponse response) result)
            rs initialResult.

Definition finalWord (jsWord : Wire.Word) : Word :=
  wordFromJson jsWord true.
Definition nonFinalWord (jsWord : Wire.Word) : Word :=
  wordFromJson jsWord false.

(** ** The collaborators, as far as the session sees them *)

Definition MediaStream : Set := nat.
Definition Callback : Set := nat.
Definition SpeechContext : Set := string.

Inductive RecorderState : Set := inactive | recording.

Record MediaRecorder : Set := {
  stream : MediaStream;
  state : RecorderState
}.

Record WebSocket : Set := { url : string }.

(** What is sent with [webSocket.send]. *)
Inductive Frame : Type :=
| ConfigFrame (api_key : string) (sample_rate_hertz : Z)
              (include_nonfinal : bool) (speech_context : SpeechContext)
| AudioFrame (data : Encoder.Uint8Array)
| EmptyFrame.

(** Everything a method does to the outside, in program order. *)
Inductive effect : Type :=
| GetUserMedia
| TracksStop (mediaStream : MediaStream)
| NewMediaRecorder (mediaStream : MediaStream)
| RecorderAddListeners
| RecorderRemoveListeners
| RecorderStart (timeslice maxOutputSize : Z)
| RecorderErrorEvent (method : string)
| RecorderStop
| RecorderTerminateWorker
| NewWebSocket (uri : string)
| WsSend (frame : Frame)
| WsDetachHandlers
| WsClose
| ThenCompleteFinishingEarly
| CallOnStarted (f : Callback)
| CallOnPartialResult (f : Callback) (result : Result)
| CallOnFinished (f : Callback)
| CallOnError (f : Callback) (status message : string).

Definition is_callback (e : effect) : bool :=
  match e with
  | CallOnStarted _ | CallOnPartialResult _ _
  | CallOnFinished _ | CallOnError _ _ _ => true
  | _ => false
  end.

Definition is_terminal_callback (e : effect) : bool :=
  match e with
  | CallOnFinished _ | CallOnError _ _ _ => true
  | _ => false
  end.

(** ** The session object *)

Record RecordTranscribe : Type := {
  _state : State;
  _includeNonFinal : bool;
  _apiKey : string;
  _speechContext : SpeechContext;
  _onStarted : option Callback;
  _onPartialResult : option Callback;
  _onFinished : option Callback;
  _onError : option Callback;
  _webSocketUri : string;
  _mediaStream : option MediaStream;
  _mediaRecorder : option MediaRecorder;
  _mediaRecorderOnStop : bool;
  _mediaRecorderOnData : bool;
  _webSocket : option WebSocket;
  _result : Result
}.

(** Assignments to one field: [this.f = v]. *)

Definition with_state (v : State) (o : RecordTranscribe)
  : RecordTranscribe :=
  {| _state := v; _includeNonFinal := _includeNonFinal o; _apiKey :=
     _apiKey o; _speechContext := _speechContext o; _onStarted :=
     _onStarted o; _onPartialResult := _onPartialResult o; _onFinished :=
     _onFinished o; _onError := _onError o; _webSocketUri := _webSocketUri
     o; _mediaStream := _mediaStream o; _mediaRecorder := _mediaRecorder
     o; _mediaRecorderOnStop := _mediaRecorderOnStop o;
     _mediaRecorderOnData := _mediaRecorderOnData o; _webSocket :=
     _webSocket o; _result := _result o |}.

Definition with_includeNonFinal (v : bool) (o : RecordTranscribe)
  : RecordTranscribe :=
  {| _state := _state o; _includeNonFinal := v; _apiKey := _apiKey o;
     _speechContext := _speechContext o; _onStarted := _onStarted o;
     _onPartialResult := _onPartialResult o; _onFinished := _onFinished o;
     _onError := _onError o; _webSocketUri := _webSocketUri o;
     _mediaStream := _mediaStream o; _mediaRecorder := _mediaRecorder o;
     _mediaRecorderOnStop := _mediaRecorderOnStop o; _mediaRecorderOnData
     := _mediaRecorderOnData o; _webSocket := _webSocket o; _result :=
     _result o |}.

Definition with_apiKey (v : string) (o : RecordTranscribe)
  : RecordTranscribe :=
  {| _state := _state o; _includeNonFinal := _includeNonFinal o; _apiKey
     := v; _speechContext := _speechContext o; _onStarted := _onStarted o;
     _onPartialResult := _onPartialResult o; _onFinished := _onFinished o;
     _onError := _onError o; _webSocketUri := _webSocketUri o;
     _mediaStream := _mediaStream o; _mediaRecorder := _mediaRecorder o;
     _mediaRecorderOnStop := _mediaRecorderOnStop o; _mediaRecorderOnData
     := _mediaRecorderOnData o; _webSocket := _webSocket o; _result :=
     _result o |}.

Definition with_speechContext (v : SpeechContext) (o : RecordTranscribe)
  : RecordTranscribe :=
  {| _state := _state o; _includeNonFinal := _includeNonFinal o; _apiKey
     := _apiKey o; _speechContext := v; _onStarted := _onStarted o;
     _onPartialResult := _onPartialResult o; _onFinished := _onFinished o;
     _onError := _onError o; _webSocketUri := _webSocketUri o;
     _mediaStream := _mediaStream o; _mediaRecorder := _mediaRecorder o;
     _mediaRecorderOnStop := _mediaRecorderOnStop o; _mediaRecorderOnData
     := _mediaRecorderOnData o; _webSocket := _webSocket o; _result :=
     _result o |}.

Definition with_onStarted (v : option Callback) (o : RecordTranscribe)
  : RecordTranscribe :=
  {| _state := _state o; _includeNonFinal := _includeNonFinal o; _apiKey
     := _apiKey o; _speechContext := _speechContext o; _onStarted := v;
     _onPartialResult := _onPartialResult o; _onFinished := _onFinished o;
     _onError := _onError o; _webSocketUri := _webSocketUri o;
     _mediaStream := _mediaStream o; _mediaRecorder := _mediaRecorder o;
     _mediaRecorderOnStop := _mediaRecorderOnStop o; _mediaRecorderOnData
     := _mediaRecorderOnData o; _webSocket := _webSocket o; _result :=
     _result o |}.

Definition with_onPartialResult (v : option Callback) (o : RecordTranscribe)
  : RecordTranscribe :=
  {| _state := _state o; _includeNonFinal := _includeNonFinal o; _apiKey
     := _apiKey o; _speechContext := _speechContext o; _onStarted :=
     _onStarted o; _onPartialResult := v; _onFinished := _onFinished o;
     _onError := _onError o; _webSocketUri := _webSocketUri o;
     _mediaStream := _mediaStream o; _mediaRecorder := _mediaRecorder o;
     _mediaRecorderOnStop := _mediaRecorderOnStop o; _mediaRecorderOnData
     := _mediaRecorderOnData o; _webSocket := _webSocket o; _result :=
     _result o |}.

Definition with_onFinished (v : option Callback) (o : RecordTranscribe)
  : RecordTranscribe :=
  {| _state := _state o; _includeNonFinal := _includeNonFinal o; _apiKey
     := _apiKey o; _speechContext := _speechContext o; _onStarted :=
     _onStarted o; _onPartialResult := _onPartialResult o; _onFinished :=
     v; _onError := _onError o; _webSocketUri := _webSocketUri o;
     _mediaStream := _mediaStream o; _mediaRecorder := _mediaRecorder o;
     _mediaRecorderOnStop := _mediaRecorderOnStop o; _mediaRecorderOnData
     := _mediaRecorderOnData o; _webSocket := _webSocket o; _result :=
     _result o |}.

Definition with_onError (v : option Callback) (o : RecordTranscribe)
  : RecordTranscribe :=
  {| _state := _state o; _includeNonFinal := _includeNonFinal o; _apiKey
     := _apiKey o; _speechContext := _speechContext o; _onStarted :=
     _onStarted o; _onPartialResult := _onPartialResult o; _onFinished :=
     _onFinished o; _onError := v; _webSocketUri := _webSocketUri o;
     _mediaStream := _mediaStream o; _mediaRecorder := _mediaRecorder o;
     _mediaRecorderOnStop := _mediaRecorderOnStop o; _mediaRecorderOnData
     := _mediaRecorderOnData o; _webSocket := _webSocket o; _result :=
     _result o |}.

Definition with_webSocketUri (v : string) (o : RecordTranscribe)
  : RecordTranscribe :=
  {| _state := _state o; _includeNonFinal := _includeNonFinal o; _apiKey
     := _apiKey o; _speechContext := _speechContext o; _onStarted :=
     _onStarted o; _onPartialResult := _onPartialResult o; _onFinished :=
     _onFinished o; _onError := _onError o; _webSocketUri := v;
     _mediaStream := _mediaStream o; _mediaRecorder := _mediaRecorder o;
     _mediaRecorderOnStop := _mediaRecorderOnStop o; _mediaRecorderOnData
     := _mediaRecorderOnData o; _webSocket := _webSocket o; _result :=
     _result o |}.

Definition with_mediaStream (v : option MediaStream) (o : RecordTranscribe)
  : RecordTranscribe :=
  {| _state := _state o; _includeNonFinal := _includeNonFinal o; _apiKey
     := _apiKey o; _speechContext := _speechContext o; _onStarted :=
     _onStarted o; _onPartialResult := _onPartialResult o; _onFinished :=
     _onFinished o; _onError := _onError o; _webSocketUri := _webSocketUri
     o; _mediaStream := v; _mediaRecorder := _mediaRecorder o;
     _mediaRecorderOnStop := _mediaRecorderOnStop o; _mediaRecorderOnData
     := _mediaRecorderOnData o; _webSocket := _webSocket o; _result :=
     _result o |}.

Definition with_mediaRecorder (v : option MediaRecorder) (o : RecordTranscribe)
  : RecordTranscribe :=
  {| _state := _state o; _includeNonFinal := _includeNonFinal o; _apiKey
     := _apiKey o; _speechContext := _speechContext o; _onStarted :=
     _onStarted o; _onPartialResult := _onPartialResult o; _onFinished :=
     _onFinished o; _onError := _onError o; _webSocketUri := _webSocketUri
     o; _mediaStream := _mediaStream o; _mediaRecorder := v;
     _mediaRecorderOnStop := _mediaRecorderOnStop o; _mediaRecorderOnData
     := _mediaRecorderOnData o; _webSocket := _webSocket o; _result :=
     _result o |}.

Definition with_mediaRecorderOnStop (v : bool) (o : RecordTranscribe)
  : RecordTranscribe :=
  {| _state := _state o; _includeNonFinal := _includeNonFinal o; _apiKey
     := _apiKey o; _speechContext := _speechContext o; _onStarted :=
     _onStarted o; _onPartialResult := _onPartialResult o; _onFinished :=
     _onFinished o; _onError := _onError o; _webSocketUri := _webSocketUri
     o; _mediaStream := _mediaStream o; _mediaRecorder := _mediaRecorder
     o; _mediaRecorderOnStop := v; _mediaRecorderOnData :=
     _mediaRecorderOnData o; _webSocket := _webSocket o; _result :=
     _result o |}.

Definition with_mediaRecorderOnData (v : bool) (o : RecordTranscribe)
  : RecordTranscribe :=
  {| _state := _state o; _includeNonFinal := _includeNonFinal o; _apiKey
     := _apiKey o; _speechContext := _speechContext o; _onStarted :=
     _onStarted o; _onPartialResult := _onPartialResult o; _onFinished :=
     _onFinished o; _onError := _onError o; _webSocketUri := _webSocketUri
     o; _mediaStream := _mediaStream o; _mediaRecorder := _mediaRecorder
     o; _mediaRecorderOnStop := _mediaRecorderOnStop o;
     _mediaRecorderOnData := v; _webSocket := _webSocket o; _result :=
     _result o |}.

Definition with_webSocket (v : option WebSocket) (o : RecordTranscribe)
  : RecordTranscribe :=
  {| _state := _state o; _includeNonFinal := _includeNonFinal o; _apiKey
     := _apiKey o; _speechContext := _speechContext o; _onStarted :=
     _onStarted o; _onPartialResult := _onPartialResult o; _onFinished :=
     _onFinished o; _onError := _onError o; _webSocketUri := _webSocketUri
     o; _mediaStream := _mediaStream o; _mediaRecorder := _mediaRecorder
     o; _mediaRecorderOnStop := _mediaRecorderOnStop o;
     _mediaRecorderOnData := _mediaRecorderOnData o; _webSocket := v;
     _result := _result o |}.

Definition with_result (v : Result) (o : RecordTranscribe)
  : RecordTranscribe :=
  {| _state := _state o; _includeNonFinal := _includeNonFinal o; _apiKey
     := _apiKey o; _speechContext := _speechContext o; _onStarted :=
     _onStarted o; _onPartialResult := _onPartialResult o; _onFinished :=
     _onFinished o; _onError := _onError o; _webSocketUri := _webSocketUri
     o; _mediaStream := _mediaStream o; _mediaRecorder := _mediaRecorder
     o; _mediaRecorderOnStop := _mediaRecorderOnStop o;
     _mediaRecorderOnData := _mediaRecorderOnData o; _webSocket :=
     _webSocket o; _result := v |}.

(** [new RecordTranscribe()], on a supported browser. *)
Definition new_RecordTranscribe : RecordTranscribe :=
  {| _state := Init;
     _includeNonFinal := false;
     _apiKey := DefaultApiKey;
     _speechContext := "{}";
     _onStarted := None;
     _onPartialResult := None;
     _onFinished := None;
     _onError := None;
     _webSocketUri := DefaultWebSocketUri;
     _mediaStream := None;
     _mediaRecorder := None;
     _mediaRecorderOnStop := false;
     _mediaRecorderOnData := false;
     _webSocket := None;
     _result := initialResult |}.

(** The module-level flag together with the one session object. *)
Record world : Type := {
  recordTranscribeActive : bool;
  this : RecordTranscribe
}.

(** ** Methods as computations

    A method runs on the world, logs its effects in order and either
    completes or throws; what it did before throwing stays done. *)

Inductive completion (A : Type) : Type :=
| Normal (a : A)
| Throw (exn : string).
Arguments Normal {A} a.
Arguments Throw {A} exn.

Definition M (A : Type) : Type := world -> completion A * world * list effect.

Definition ret {A : Type} (a : A) : M A := fun w => (Normal a, w, []).

Definition bind {A B : Type} (m : M A) (k : A -> M B) : M B := fun w =>
  match m w with
  | (Normal a, w1, out1) =>
      match k a w1 with (c, w2, out2) => (c, w2, out1 ++ out2) end
  | (Throw exn, w1, out1) => (Throw exn, w1, out1)
  end.

Definition throw {A : Type} (exn : string) : M A := fun w => (Throw exn, w, []).

Definition emit (e : effect) : M unit := fun w => (Normal tt, w, [e]).

Definition getThis : M RecordTranscribe := fun w => (Normal (this w), w, []).

Definition update (f : RecordTranscribe -> RecordTranscribe) : M unit :=
  fun w => (Normal tt,
            {| recordTranscribeActive := recordTranscribeActive w;
               this := f (this w) |}, []).

Definition getActive : M bool :=
  fun w => (Normal (recordTranscribeActive w), w, []).

Definition setActive (b : bool) : M unit :=
  fun w => (Normal tt, {| recordTranscribeActive := b; this := this w |}, []).

Notation "x <- m ;; k" := (bind m (fun x => k))
  (at level 61, m at next level, right associativity).
Notation "m ;; k" := (bind m (fun _ => k))
  (at level 61, right associativity).

(** [if (cb != null) cb(...)]. *)
Definition invoke (cb : option Callback) (call : Callback -> effect) : M unit :=
  match cb with
  | Some f => emit (call f)
  | None => ret tt
  end.

(** Dereferencing [null]. *)
Definition TypeError : string := "TypeError".

(** *** The setters *)

Definition setter (name : string) (f : RecordTranscribe -> RecordTranscribe)
  : M unit :=
  o <- getThis ;;
  if negb (State_eqb (_state o) Init)
  then throw (name ++ "() may only be called before start()")%string
  else update f.

Definition setIncludeNonFinal (includeNonFinal : bool) : M unit :=
  setter "setIncludeNonFinal" (with_includeNonFinal includeNonFinal).
Definition setApiKey (apiKey : string) : M unit :=
  setter "setApiKey" (with_apiKey apiKey).
Definition setSpeechContext (speechContext : SpeechContext) : M unit :=
  setter "setSpeechContext" (with_speechContext speechContext).
Definition setOnStarted (onStarted : option Callback) : M unit :=
  setter "setOnStarted" (with_onStarted onStarted).
Definition setOnPartialResult (onPartialResult : option Callback) : M unit :=
  setter "setOnPartialResult" (with_onPartialResult onPartialResult).
Definition setOnFinished (onFinished : option Callback) : M unit :=
  setter "setOnFinished" (with_onFinished onFinished).
Definition setOnError (onError : option Callback) : M unit :=
  setter "setOnError" (with_onError onError).
Definition setWebSocketUri (webSocketUri : string) : M unit :=
  setter "setWebSocketUri" (with_webSocketUri webSocketUri).

(** *** Releasing resources *)

Definition _closeWebSocket : M unit :=
  o <- getThis ;;
  match _webSocket o with
  | Some _ =>
      emit WsDetachHandlers ;;
      emit WsClose ;;
      update (with_webSocket None)
  | None => ret tt
  end.

Definition _closeMedia : M unit :=
  o <- getThis ;;
  match _mediaRecorder o with
  | Some r =>
      emit RecorderRemoveListeners ;;
      match state r with
      | recording => emit RecorderStop
      | inactive => ret tt
      end ;;
      emit RecorderTerminateWorker ;;
      update (with_mediaRecorderOnStop false) ;;
      update (with_mediaRecorderOnData false) ;;
      update (with_mediaRecorder None)
  | None => ret tt
  end ;;
  o <- getThis ;;
  match _mediaStream o with
  | Some mediaStream =>
      emit (TracksStop mediaStream) ;;
      update (with_mediaStream None)
  | None => ret tt
  end.

Definition _closeResources : M unit :=
  _closeWebSocket ;;
  _closeMedia.

(** *** The transitions *)

Definition _goRunningToFinishing : M unit :=
  _closeMedia ;;
  o <- getThis ;;
  match _webSocket o with
  | Some _ => emit (WsSend EmptyFrame)
  | None => throw TypeError
  end ;;
  update (with_state Finishing).

Definition _handleError (status message : string) : M unit :=
  _closeResources ;;
  update (with_state Error) ;;
  setActive false ;;
  o <- getThis ;;
  invoke (_onError o) (fun f => CallOnError f status message).

Definition _handleFinished : M unit :=
  _closeResources ;;
  update (with_state Finished) ;;
  setActive false ;;
  o <- getThis ;;
  invoke (_onFinished o) CallOnFinished.

(** *** The public operations *)

Definition start : M unit :=
  o <- getThis ;;
  if negb (State_eqb (_state o) Init)
  then throw "start() may only be called once"
  else
    active <- getActive ;;
    if active
    then throw "only one RecordTranscribe may be active at a time"
    else
      emit GetUserMedia ;;
      setActive true ;;
      update (with_state RequestingMedia).

Definition stop : M unit :=
  o <- getThis ;;
  if State_eqb (_state o) RequestingMedia
     || State_eqb (_state o) OpeningWebSocket
  then
    _closeResources ;;
    emit ThenCompleteFinishingEarly ;;
    update (with_state FinishingEarly)
  else if State_eqb (_state o) Running
  then _goRunningToFinishing
  else ret tt.

Definition cancel : M unit :=
  o <- getThis ;;
  if negb (isInactiveState (_state o))
  then
    _closeResources ;;
    update (with_state Canceled) ;;
    setActive false
  else ret tt.

Definition getResult (o : RecordTranscribe) : Result := _result o.

Definition getResultCopy (o : RecordTranscribe) : Result :=
  let result := _result o in
  {| words := words result;
     final_proc_time_ms := final_proc_time_ms result;
     total_proc_time_ms := total_proc_time_ms result |}.

Definition getState (o : RecordTranscribe) : string :=
  ToUserStateMap (_state o).

(** *** The event handlers *)

Definition _onGetUserMediaSuccess (mediaStream : MediaStream) : M unit :=
  o <- getThis ;;
  if negb (State_eqb (_state o) RequestingMedia)
  then emit (TracksStop mediaStream)
  else
    update (with_mediaStream (Some mediaStream)) ;;
    emit (NewMediaRecorder mediaStream) ;;
    update (with_mediaRecorder
              (Some {| stream := mediaStream; state := inactive |})) ;;
    update (with_mediaRecorderOnStop true) ;;
    update (with_mediaRecorderOnData true) ;;
    emit RecorderAddListeners ;;
    emit (NewWebSocket (_webSocketUri o)) ;;
    update (with_webSocket (Some {| url := _webSocketUri o |})) ;;
    update (with_state OpeningWebSocket).

Definition _onGetUserMediaError : M unit :=
  o <- getThis ;;
  if negb (State_eqb (_state o) RequestingMedia)
  then ret tt
  else _handleError "get_user_media_failed" "Failed to get user media.".

Definition _onMediaRecorderStop : M unit :=
  o <- getThis ;;
  if negb (State_eqb (_state o) Running)
  then ret tt
  else _goRunningToFinishing.

Definition _onMediaRecorderData (data : Encoder.Uint8Array) : M unit :=
  o <- getThis ;;
  if negb (State_eqb (_state o) Running)
  then ret tt
  else
    match _webSocket o with
    | Some _ => emit (WsSend (AudioFrame data))
    | None => throw TypeError
    end.

(** [Math.round]. *)
Definition Math_round (x : Q) : Z := Qfloor (x + (1 # 2))%Q.

(** [sampleRate] is what [getSampleRate()] answers once the recorder has
    started. *)
Definition _onWebSocketOpen (sampleRate : Q) : M unit :=
  o <- getThis ;;
  if negb (State_eqb (_state o) OpeningWebSocket)
  then ret tt
  else
    match _mediaRecorder o with
    | Some r =>
        match state r with
        | inactive =>
            update (with_mediaRecorder
                      (Some {| stream := stream r; state := recording |})) ;;
            emit (RecorderStart RecorderTimeSlice_ms MaxOutputSize_B)
        | recording => emit (RecorderErrorEvent "start")
        end
    | None => throw TypeError
    end ;;
    match _webSocket o with
    | Some _ =>
        emit (WsSend (ConfigFrame (_apiKey o) (Math_round sampleRate)
                                  (_includeNonFinal o) (_speechContext o)))
    | None => throw TypeError
    end ;;
    update (with_state Running) ;;
    invoke (_onStarted o) CallOnStarted.

(** The decimal rendering of [event.code] in a string concatenation. *)
Definition decimal (n : N) : string := NilZero.string_of_uint (N.to_uint n).

Definition _onWebSocketClose (code : N) (reason : string) : M unit :=
  o <- getThis ;;
  if negb (isWebSocketState (_state o))
  then ret tt
  else
    if (code =? 1000)%N then
      match StatusMessageRegex_exec reason with
      | Some (status, message) =>
          if String.eqb status "eof" then
            if State_eqb (_state o) Finishing
            then _handleFinished
            else _handleError "other_asr_error" "Unexpected EOF received."
          else _handleError status message
      | None => _handleError "other_asr_error" reason
      end
    else
      _handleError "websocket_closed"
                   ("WebSocket closed: code=" ++ decimal code
                    ++ ", reason=" ++ reason)%string.

Definition _onWebSocketError : M unit :=
  o <- getThis ;;
  if negb (isWebSocketState (_state o))
  then ret tt
  else _handleError "websocket_error" "WebSocket error occurred.".

(** [data] is [None] when the frame is not a JSON result frame, so that
    [JSON.parse] or [resultFromResponse] throws. *)
Definition _onWebSocketMessage (data : option Wire.Response) : M unit :=
  o <- getThis ;;
  if negb (State_eqb (_state o) Running)
     && negb (State_eqb (_state o) Finishing)
  then ret tt
  else
    match data with
    | Some response =>
        let result := resultFromResponse response in
        update (fun o => with_result (_updateResult result (_result o)) o) ;;
        invoke (_onPartialResult o) (fun f => CallOnPartialResult f result)
    | None => throw "SyntaxError"
    end.

Definition _completeFinishingEarly : M unit :=
  o <- getThis ;;
  if negb (State_eqb (_state o) FinishingEarly)
  then ret tt
  else _handleFinished.

(** ** Everything that can happen to a session *)

Inductive event : Type :=
| Call_start
| Call_stop
| Call_cancel
| Call_setIncludeNonFinal (includeNonFinal : bool)
| Call_setApiKey (apiKey : string)
| Call_setSpeechContext (speechContext : SpeechContext)
| Call_setOnStarted (onStarted : option Callback)
| Call_setOnPartialResult (onPartialResult : option Callback)
| Call_setOnFinished (onFinished : option Callback)
| Call_setOnError (onError : option Callback)
| Call_setWebSocketUri (webSocketUri : string)
| GetUserMediaSuccess (mediaStream : MediaStream)
| GetUserMediaError
| MediaRecorderStop
| MediaRecorderData (data : Encoder.Uint8Array)
| WebSocketOpen (sampleRate : Q)
| WebSocketClose (code : N) (reason : string)
| WebSocketError
| WebSocketMessage (data : option Wire.Response)
| CompleteFinishingEarly.

Definition handle (e : event) : M unit :=
  match e with
  | Call_start => start
  | Call_stop => stop
  | Call_cancel => cancel
  | Call_setIncludeNonFinal b => setIncludeNonFinal b
  | Call_setApiKey k => setApiKey k
  | Call_setSpeechContext c => setSpeechContext c
  | Call_setOnStarted f => setOnStarted f
  | Call_setOnPartialResult f => setOnPartialResult f
  | Call_setOnFinished f => setOnFinished f
  | Call_setOnError f => setOnError f
  | Call_setWebSocketUri u => setWebSocketUri u
  | GetUserMediaSuccess mediaStream => _onGetUserMediaSuccess mediaStream
  | GetUserMediaError => _onGetUserMediaError
  | MediaRecorderStop => _onMediaRecorderStop
  | MediaRecorderData data => _onMediaRecorderData data
  | WebSocketOpen sampleRate => _onWebSocketOpen sampleRate
  | WebSocketClose code reason => _onWebSocketClose code reason
  | WebSocketError => _onWebSocketError
  | WebSocketMessage data => _onWebSocketMessage data
  | CompleteFinishingEarly => _completeFinishingEarly
  end.

(** How a computation ended, and the world and the effects it left. *)
Definition outcome {A : Type} (m : M A) (w : world) : completion A :=
  fst (fst (m w)).

Definition exec {A : Type} (m : M A) (w : world) : world * list effect :=
  match m w with (_, w', out) => (w', out) end.

(** The world and the effects after one event; an exception goes to the
    caller of that one method and the session lives on. *)
Definition step (e : event) (w : world) : world * list effect :=
  exec (handle e) w.

Fixpoint run (es : list event) (w : world) : world * list effect :=
  match es with
  | [] => (w, [])
  | e :: es' =>
      let (w1, out1) := step e w in
      let (w2, out2) := run es' w1 in
      (w2, out1 ++ out2)
  end.

(** The world of a page that has just constructed its session. *)
Definition fresh : world :=
  {| recordTranscribeActive := false; this := new_RecordTranscribe |}.

(** The handles a state relies on are there: the channel and the recorder
    while the channel is opening, the channel while running. *)
Definition consistent (w : world) : bool :=
  match _state (this w) with
  | OpeningWebSocket =>
      match _webSocket (this w), _mediaRecorder (this w) with
      | Some _, Some _ => true
      | _, _ => false
      end
  | Running =>
      match _webSocket (this w) with
      | Some _ => true
      | None => false
      end
  | _ => true
  end.

Definition is_deferral (e : effect) : bool :=
  match e with
  | ThenCompleteFinishingEarly => true
  | _ => false
  end.

(** ** Sample sessions, one per stage of the life cycle *)

(** All four callbacks registered, not started. *)
Definition registered : world :=
  Eval vm_compute in
  fst (run [Call_setOnStarted (Some 1); Call_setOnPartialResult (Some 2);
            Call_setOnFinished (Some 3); Call_setOnError (Some 4)] fresh).

Definition requesting : world :=
  Eval vm_compute in fst (run [Call_start] registered).
Definition opening : world :=
  Eval vm_compute in fst (run [GetUserMediaSuccess 7] requesting).
Definition running : world :=
  Eval vm_compute in fst (run [WebSocketOpen (48000 # 1)%Q] opening).
Definition finishing : world :=
  Eval vm_compute in fst (run [Call_stop] running).

(** ** Reading a log of effects *)

(** The frames sent on the channel, in order. *)
Fixpoint frames (out : list effect) : list Frame :=
  match out with
  | [] => []
  | WsSend frame :: out' => frame :: frames out'
  | _ :: out' => frames out'
  end.

Definition is_config (frame : Frame) : bool :=
  match frame with
  | ConfigFrame _ _ _ _ => true
  | _ => false
  end.

(** How many times the microphone was asked for. *)
Fixpoint requests (out : list effect) : nat :=
  match out with
  | [] => 0
  | GetUserMedia :: out' => S (requests out')
  | _ :: out' => requests out'
  end.

(** The streams the events grant. *)
Fixpoint granted (es : list event) : list MediaStream :=
  match es with
  | [] => []
  | GetUserMediaSuccess mediaStream :: es' => mediaStream :: granted es'
  | _ :: es' => granted es'
  end.

(** The frames of a session: nothing, or one configuration frame, then
    audio frames, then at most one empty frame. *)
Definition frames_shape (fs : list Frame) : Prop :=
  fs = []
  \/ exists config data tail,
       fs = config :: map AudioFrame data ++ tail
       /\ is_config config = true
       /\ (tail = [] \/ tail = [EmptyFrame]).

Definition is_partial (e : effect) : bool :=
  match e with
  | CallOnPartialResult _ _ => true
  | _ => false
  end.

(** The callbacks of a session: the started callback at most once and
    first, then partial results, then a terminal callback at most once and
    last. *)
Definition callbacks_shape (cs : list effect) : Prop :=
  exists started partials terminal,
    cs = started ++ partials ++ terminal
    /\ (started = [] \/ exists f, started = [CallOnStarted f])
    /\ forallb is_partial partials = true
    /\ (terminal = []
        \/ (exists f, terminal = [CallOnFinished f])
        \/ (exists f status message,
              terminal = [CallOnError f status message])).

(** Where a state stands with respect to the channel: not yet running (0),
    running or finishing (1), over (2). *)
Definition stage (st : State) : nat :=
  match st with
  | Init | RequestingMedia | OpeningWebSocket | FinishingEarly => 0
  | Running | Finishing => 1
  | Finished | Error | Canceled => 2
  end.

(** The flag and the handles that go with each state: the flag is set
    exactly in the active states; the channel, the recorder with its
    listeners and the stream are all held while the channel is opening (the
    recorder not yet started) and while running (the recorder recording);
    only the channel is held while finishing; nothing is held otherwise. *)
Definition sound (w : world) : bool :=
  let o := this w in
  Bool.eqb (recordTranscribeActive w) (negb (isInactiveState (_state o)))
  && match _state o, _webSocket o, _mediaRecorder o, _mediaStream o with
     | OpeningWebSocket, Some _, Some r, Some _ =>
         match state r with inactive => true | recording => false end
         && _mediaRecorderOnStop o && _mediaRecorderOnData o
     | Running, Some _, Some r, Some _ =>
         match state r with recording => true | inactive => false end
         && _mediaRecorderOnStop o && _mediaRecorderOnData o
     | Finishing, Some _, None, None =>
         negb (_mediaRecorderOnStop o) && negb (_mediaRecorderOnData o)
     | (Init | RequestingMedia | FinishingEarly
        | Finished | Error | Canceled), None, None, None =>
         negb (_mediaRecorderOnStop o) && negb (_mediaRecorderOnData o)
     | _, _, _, _ => false
     end.


(** What is fixed once [start()] has been called. *)
Definition settings (o : RecordTranscribe)
  : bool * string * SpeechContext * string
    * (option Callback * option Callback * option Callback * option Callback)
  :=
  (_includeNonFinal o, _apiKey o, _speechContext o, _webSocketUri o,
   (_onStarted o, _onPartialResult o, _onFinished o, _onError o)).

(** The states before the channel is in use. *)
Definition is_front (st : State) : bool :=
  match st with
  | Init | RequestingMedia | OpeningWebSocket | FinishingEarly => true
  | _ => false
  end.

(** The configuration frame a session with these settings sends. *)
Definition configures (o : RecordTranscribe) (frame : Frame) : Prop :=
  match frame with
  | ConfigFrame api_key _ include_nonfinal speech_context =>
      api_key = _apiKey o /\ include_nonfinal = _includeNonFinal o
      /\ speech_context = _speechContext o
  | _ => True
  end.

(** The final words of a sequence of frames, in order, and the non-final
    words of the last of them. *)
Definition finals_of (rs : list Wire.Response) : list Word :=
  flat_map (fun r => map finalWord (Wire.fw r)) rs.

Definition pending_of (rs : list Wire.Response) : list Word :=
  match rev rs with
  | r :: _ => map nonFinalWord (Wire.nfw r)
  | [] => []
  end.

(** What the error callback is told when the channel closes normally with
    a reason other than the end-of-stream token. *)
Definition close_report (reason : string) : string * string :=
  match StatusMessageRegex_exec reason with
  | Some (status, message) => (status, message)
  | None => ("other_asr_error", reason)
  end.

(** The session holds none of its three handles. *)
Definition released (o : RecordTranscribe) : Prop :=
  _webSocket o = None /\ _mediaRecorder o = None /\ _mediaStream o = None.
End WebVoice.

(* ================================================================== *)
(** * Part III.  Properties of the encoder worker                       *)
(* ================================================================== *)

Module EncoderFacts.
Import Encoder.

Lemma totalLength_app (xs ys : list Uint8Array) :
  totalLength (xs ++ ys) = (totalLength xs + totalLength ys)%Z.
Proof.
  induction xs as [|x xs IH]; cbn; [reflexivity|].
  fold (totalLength (xs ++ ys)) (totalLength xs). rewrite IH. lia.
Qed.

Lemma totalLength_nonneg (xs : list Uint8Array) : (0 <= totalLength xs)%Z.
Proof.
  induction xs as [|x xs IH]; cbn; [lia|].
  fold (totalLength xs). unfold byteLength. lia.
Qed.

(** The array allocated with [new Uint8Array(length)] is filled exactly by
    the buffers copied into it. *)
Lemma length_concat_totalLength (g : list Uint8Array) :
  Z.of_nat (List.length (List.concat g)) = totalLength g.
Proof.
  induction g as [|b g IH]; cbn; [reflexivity|].
  fold (totalLength g). rewrite length_app, Nat2Z.inj_add, IH. reflexivity.
Qed.

(** ** The inner loop *)

Section Scan.
Variable maxOutputSize : Z.

Lemma scan_count rest : forall k l n len,
  scan maxOutputSize rest k l = (n, len) ->
  k <= n /\ n <= k + List.length rest.
Proof.
  induction rest as [|b rest IH]; cbn [scan]; intros k l n len H.
  - injection H as <- <-. cbn. lia.
  - destruct ((0 <? k) && (l + byteLength b >? maxOutputSize)%Z).
    + injection H as <- <-. cbn. lia.
    + apply IH in H. cbn. lia.
Qed.

(** Started on an empty chunk, the loop takes at least one buffer. *)
Lemma scan_takes_one b rest l n len :
  scan maxOutputSize (b :: rest) 0 l = (n, len) -> 1 <= n.
Proof.
  cbn. intros H. apply scan_count in H. lia.
Qed.

Lemma scan_length rest : forall k l n len,
  scan maxOutputSize rest k l = (n, len) ->
  len = (l + totalLength (firstn (n - k) rest))%Z.
Proof.
  induction rest as [|b rest IH]; cbn [scan]; intros k l n len H.
  - injection H as <- <-. rewrite firstn_nil. cbn. lia.
  - destruct ((0 <? k) && (l + byteLength b >? maxOutputSize)%Z).
    + injection H as <- <-. rewrite Nat.sub_diag. cbn. lia.
    + pose proof (scan_count _ _ _ _ _ H) as [Hk _].
      apply IH in H. subst len.
      replace (n - k) with (S (n - S k)) by lia.
      cbn. fold (totalLength (firstn (n - S k) rest)). lia.
Qed.

(** Whatever was added to a non-empty chunk kept it within the limit. *)
Lemma scan_bound rest : forall k l n len,
  scan maxOutputSize rest k l = (n, len) ->
  (2 <= k -> (l <= maxOutputSize)%Z) ->
  2 <= n -> (len <= maxOutputSize)%Z.
Proof.
  induction rest as [|b rest IH]; cbn [scan]; intros k l n len H Hinv Hn.
  - injection H as <- <-. auto.
  - destruct (0 <? k) eqn:Hk; cbn [andb] in H.
    + destruct (l + byteLength b >? maxOutputSize)%Z eqn:Hov.
      * injection H as <- <-. auto.
      * apply (IH _ _ _ _ H); [|exact Hn].
        intros _. rewrite Z.gtb_ltb in Hov. apply Z.ltb_ge in Hov. exact Hov.
    + apply Nat.ltb_ge in Hk.
      apply (IH _ _ _ _ H); [|exact Hn]. intros; lia.
Qed.

(** The loop stops short of the end only at a buffer that overflows. *)
Lemma scan_stop rest : forall k l n len,
  scan maxOutputSize rest k l = (n, len) ->
  n - k < List.length rest ->
  exists next, nth_error rest (n - k) = Some next
               /\ (len + byteLength next > maxOutputSize)%Z.
Proof.
  induction rest as [|b rest IH]; cbn [scan]; intros k l n len H Hlt.
  - cbn in Hlt. lia.
  - destruct ((0 <? k) && (l + byteLength b >? maxOutputSize)%Z) eqn:Hc.
    + injection H as <- <-. rewrite Nat.sub_diag. exists b.
      split; [reflexivity|].
      apply andb_true_iff in Hc as [_ Hov].
      rewrite Z.gtb_ltb in Hov. apply Z.ltb_lt in Hov. lia.
    + pose proof (scan_count _ _ _ _ _ H) as [Hk _].
      destruct (IH _ _ _ _ H) as (next & Hnth & Hov).
      { cbn in Hlt. lia. }
      exists next. split; [|exact Hov].
      replace (n - k) with (S (n - S k)) by lia. exact Hnth.
Qed.
End Scan.

(** ** The outer loop *)

Lemma greedy_cons maxOutputSize g groups :
  (forall next g' tl, groups = (next :: g') :: tl ->
     (totalLength g + byteLength next > maxOutputSize)%Z) ->
  greedy maxOutputSize groups ->
  greedy maxOutputSize (g :: groups).
Proof.
  intros Hhd Hgr. destruct groups as [|[|next g'] tl]; cbn [greedy].
  - exact I.
  - exact Hgr.
  - split; [eapply Hhd; reflexivity | exact Hgr].
Qed.

Lemma dump_loop_spec maxOutputSize buffers : forall fuel buffersPos out,
  List.length buffers - buffersPos <= fuel ->
  exists groups,
    dump_loop fuel maxOutputSize buffers buffersPos out
      = Some (out ++ map (@List.concat byte) groups)
    /\ List.concat groups = skipn buffersPos buffers
    /\ Forall (fun g => g <> []) groups
    /\ Forall (fun g => 2 <= List.length g ->
                        (totalLength g <= maxOutputSize)%Z) groups
    /\ greedy maxOutputSize groups.
Proof.
  induction fuel as [|fuel IH]; intros pos out Hfuel.
  - exists []. cbn [dump_loop].
    destruct (pos <? List.length buffers) eqn:Hpos.
    + apply Nat.ltb_lt in Hpos. lia.
    + apply Nat.ltb_ge in Hpos. cbn.
      rewrite app_nil_r, skipn_all2 by exact Hpos.
      repeat split; constructor.
  - cbn [dump_loop]. destruct (pos <? List.length buffers) eqn:Hpos.
    2:{ exists []. apply Nat.ltb_ge in Hpos. cbn.
        rewrite app_nil_r, skipn_all2 by exact Hpos.
        repeat split; constructor. }
    apply Nat.ltb_lt in Hpos.
    set (rest := skipn pos buffers).
    assert (Hlen : List.length rest = List.length buffers - pos)
      by (subst rest; apply length_skipn).
    destruct (scan maxOutputSize rest 0 0%Z) as [n len] eqn:Hscan.
    assert (Hn1 : 1 <= n).
    { destruct rest as [|b rest']; [cbn in Hlen; lia|].
      eapply scan_takes_one; eassumption. }
    pose proof (scan_count _ _ _ _ _ _ Hscan) as [_ Hn2].
    pose proof (scan_length _ _ _ _ _ _ Hscan) as Hl.
    rewrite Nat.sub_0_r, Z.add_0_l in Hl.
    destruct (IH (pos + n) (out ++ [List.concat (firstn n rest)]))
      as (groups & Hrun & Hcat & Hne & Hbd & Hgr); [lia|].
    exists (firstn n rest :: groups).
    assert (Htail : skipn (pos + n) buffers = skipn n rest).
    { subst rest. rewrite skipn_skipn. f_equal. lia. }
    split; [|split; [|split; [|split]]].
    + rewrite Hrun, <- app_assoc. reflexivity.
    + cbn [List.concat]. rewrite Hcat, Htail. apply firstn_skipn.
    + constructor; [|exact Hne].
      intros Hnil. apply (f_equal (@List.length _)) in Hnil.
      rewrite length_firstn in Hnil. cbn in Hnil. lia.
    + constructor; [|exact Hbd].
      rewrite length_firstn. intros H2. rewrite <- Hl.
      eapply scan_bound; [exact Hscan | intros; lia | lia].
    + apply greedy_cons; [|exact Hgr].
      intros next g' tl ->. cbn [List.concat] in Hcat.
      rewrite Htail in Hcat.
      assert (Hlt : n < List.length rest).
      { apply (f_equal (@List.length _)) in Hcat.
        rewrite length_skipn in Hcat. cbn in Hcat. lia. }
      destruct (scan_stop _ _ _ _ _ _ Hscan) as (nx & Hnth & Hov);
        [lia|]. rewrite Nat.sub_0_r in Hnth.
      assert (nx = next).
      { rewrite <- (firstn_skipn n rest) in Hnth.
        rewrite nth_error_app2 in Hnth by (rewrite length_firstn; lia).
        rewrite length_firstn, Nat.min_l, Nat.sub_diag in Hnth by lia.
        rewrite <- Hcat in Hnth. cbn in Hnth. congruence. }
      subst nx. rewrite <- Hl. exact Hov.
Qed.

(** [dump] always returns: the fuel it supplies is enough. *)
Lemma dump_returns maxOutputSize buffers :
  exists out, dump maxOutputSize buffers = Some (out, []).
Proof.
  unfold dump.
  destruct (dump_loop_spec maxOutputSize buffers (List.length buffers) 0 [])
    as (groups & -> & _); [lia|].
  eexists. reflexivity.
Qed.

Lemma dump_empty maxOutputSize : dump maxOutputSize [] = Some ([], []).
Proof. reflexivity. Qed.

(** C4. [dump(N)] cuts the accumulated buffers, in order, into groups of
    whole buffers and returns the concatenation of each group: no group is
    empty, a group of two or more buffers has total size at most [N], each
    group was closed only because the next buffer would have overflowed it,
    and every chunk has the size of its group.  In particular, on three
    buffers [a; b; c] with [a] longer than [N] the first chunk is [a]
    alone. *)
Theorem dump_greedy_partition (maxOutputSize : Z) (buffers : list Uint8Array) :
  exists groups : list (list Uint8Array),
    dump maxOutputSize buffers = Some (map (@List.concat byte) groups, [])
    /\ List.concat groups = buffers
    /\ Forall (fun g => g <> []) groups
    /\ Forall (fun g => 2 <= List.length g ->
                        (totalLength g <= maxOutputSize)%Z) groups
    /\ greedy maxOutputSize groups
    /\ Forall (fun g => Z.of_nat (List.length (List.concat g)) = totalLength g)
              groups
    /\ (forall a b c, buffers = [a; b; c] ->
          (byteLength a > maxOutputSize)%Z ->
          exists tl, groups = [a] :: tl).
Proof.
  destruct (dump_loop_spec maxOutputSize buffers (List.length buffers) 0 [])
    as (groups & Hrun & Hcat & Hne & Hbd & Hgr); [lia|].
  exists groups. unfold dump. rewrite Hrun. cbn [app skipn] in *.
  repeat (split; try assumption).
  - apply Forall_forall. intros g _. apply length_concat_totalLength.
  - intros a b c -> Ha.
    destruct groups as [|g tl]; [discriminate Hcat|].
    exists tl. f_equal.
    inversion Hne as [|? ? Hg _]; subst.
    inversion Hbd as [|? ? Hg2 _]; subst.
    destruct g as [|x g]; [congruence|].
    cbn in Hcat. injection Hcat as -> Hcat.
    destruct g as [|y g]; [reflexivity|exfalso].
    assert (H2 : 2 <= List.length (a :: y :: g)) by (cbn; lia).
    apply Hg2 in H2. cbn in H2. fold (totalLength g) in H2.
    pose proof (totalLength_nonneg g). unfold byteLength in *. lia.
Qed.

(** The oversized-first-buffer case of C4 on concrete buffers of sizes
    3, 1, 1 with limit 2. *)
Lemma dump_greedy_partition_witness :
  exists tl,
    dump 2 [[x00; x01; x02]; [x03]; [x04]] = Some ([x00; x01; x02] :: tl, []).
Proof.
  destruct (dump_greedy_partition 2 [[x00; x01; x02]; [x03]; [x04]])
    as (groups & Hd & _ & _ & _ & _ & _ & Hfirst).
  destruct (Hfirst _ _ _ eq_refl) as [tl ->]; [reflexivity|].
  exists (map (@List.concat byte) tl). exact Hd.
Defined.

(** C9. [dump] drains the worker: whatever the buffers and the limits, the
    first [dump] returns and leaves a buffer set on which a second [dump]
    returns no chunk at all (and posts no message). *)
Theorem dump_twice_empty (maxOutputSize maxOutputSize' : Z)
        (buffers : list Uint8Array) :
  exists out buffers',
    dump maxOutputSize buffers = Some (out, buffers')
    /\ dump maxOutputSize' buffers' = Some ([], [])
    /\ onmessage (Dump maxOutputSize) buffers = Some (out, buffers')
    /\ onmessage (Dump maxOutputSize') buffers' = Some ([], []).
Proof.
  destruct (dump_returns maxOutputSize buffers) as [out Hout].
  exists out, []. cbn [onmessage]. rewrite Hout, dump_empty. auto.
Qed.

(** Concrete runs of [dump]. *)
Example dump_three_small :
  dump 4 [[x00; x01]; [x02; x03]; [x04]]
  = Some ([[x00; x01; x02; x03]; [x04]], []).
Proof. reflexivity. Qed.

Example dump_oversized_first :
  dump 2 [[x00; x01; x02]; [x03]; [x04]]
  = Some ([[x00; x01; x02]; [x03; x04]], []).
Proof. reflexivity. Qed.

Example encode_two_samples :
  encode [(-1)%Q; (1 # 2)%Q; 1%Q] [] = [[x00; x80; x00; x40; xff; x7f]].
Proof. reflexivity. Qed.

(** ** What [encode] writes *)

Lemma byte_of_Z_value z : Z.of_N (Byte.to_N (byte_of_Z z)) = (z mod 256)%Z.
Proof.
  unfold byte_of_Z.
  assert (Hr : (0 <= z mod 256 < 256)%Z) by (apply Z.mod_pos_bound; lia).
  destruct (Byte.of_N (Z.to_N (z mod 256))) as [b|] eqn:E.
  - apply Byte.to_of_N in E. rewrite E. apply Z2N.id. lia.
  - apply Byte.of_N_None_iff in E. lia.
Qed.

Lemma quantize_range x : (-32768 <= quantize x <= 32767)%Z.
Proof. unfold quantize. lia. Qed.

Lemma samples16_setInt16 v :
  (-32768 <= v <= 32767)%Z -> samples16 (setInt16_le v) = [v].
Proof.
  intros Hv. cbn [setInt16_le samples16]. unfold getInt16_le.
  rewrite !byte_of_Z_value.
  replace (v mod 256 + 256 * ((v / 256) mod 256))%Z with (v mod (256 * 256))%Z
    by (apply Z.rem_mul_r; lia).
  change (256 * 256)%Z with 65536%Z.
  destruct (Z_lt_le_dec v 0) as [Hneg | Hpos].
  - assert (E : (v mod 65536 = v + 65536)%Z).
    { symmetry. apply (Z.mod_unique _ _ (-1)); lia. }
    rewrite E. destruct (v + 65536 <? 32768)%Z eqn:Hc.
    + apply Z.ltb_lt in Hc. lia.
    + f_equal. lia.
  - rewrite Z.mod_small by lia.
    destruct (v <? 32768)%Z eqn:Hc; [reflexivity|].
    apply Z.ltb_ge in Hc. lia.
Qed.

Lemma samples16_pcm buffer : samples16 (pcm buffer) = map quantize buffer.
Proof.
  induction buffer as [|x buffer IH]; [reflexivity|].
  change (pcm (x :: buffer))
    with (byte_of_Z (quantize x) :: byte_of_Z (quantize x / 256)
          :: pcm buffer).
  cbn [samples16 map]. rewrite IH. f_equal.
  pose proof (samples16_setInt16 _ (quantize_range x)) as H.
  cbn [setInt16_le samples16] in H. congruence.
Qed.

Lemma length_pcm buffer : List.length (pcm buffer) = 2 * List.length buffer.
Proof.
  induction buffer as [|x buffer IH]; [reflexivity|].
  change (pcm (x :: buffer))
    with (byte_of_Z (quantize x) :: byte_of_Z (quantize x / 256)
          :: pcm buffer).
  cbn [List.length]. rewrite IH. lia.
Qed.

(** X1. [encode] leaves the buffers accumulated so far as they are and
    appends exactly one buffer, of two bytes per sample; read back as
    little-endian 16-bit integers, its bytes are the quantized samples in
    order, each within the signed 16-bit range. *)
Theorem encode_appends_pcm (buffer : list Q) (buffers : list Uint8Array) :
  exists encoded : Uint8Array,
    encode buffer buffers = buffers ++ [encoded]
    /\ List.length encoded = 2 * List.length buffer
    /\ samples16 encoded = map quantize buffer
    /\ Forall (fun v => (-32768 <= v <= 32767)%Z) (samples16 encoded).
Proof.
  exists (pcm buffer). split; [reflexivity|].
  split; [apply length_pcm|]. split; [apply samples16_pcm|].
  rewrite samples16_pcm. apply Forall_forall. intros v Hin.
  apply in_map_iff in Hin as (x & <- & _). apply quantize_range.
Qed.

(** ** Quantization *)

Lemma Qfloor_scaled_ge (x : Q) (n : Z) :
  (inject_Z n <= x)%Q -> (n * 32768 <= Qfloor (x * 32768))%Z.
Proof.
  intros H.
  rewrite <- (Qfloor_Z (n * 32768)). apply Qfloor_resp_le.
  rewrite inject_Z_mult. apply Qmult_le_compat_r; [exact H|discriminate].
Qed.

Lemma Qfloor_scaled_lt (x : Q) (n : Z) :
  (x < inject_Z n)%Q -> (Qfloor (x * 32768) < n * 32768)%Z.
Proof.
  intros H.
  assert (Hlt : (x * 32768 < inject_Z (n * 32768))%Q).
  { rewrite inject_Z_mult. apply Qmult_lt_compat_r; [reflexivity|exact H]. }
  pose proof (Qfloor_le (x * 32768)) as Hfl.
  assert (Hz : (inject_Z (Qfloor (x * 32768)) < inject_Z (n * 32768))%Q)
    by (eapply Qle_lt_trans; eassumption).
  rewrite <- Zlt_Qlt in Hz. exact Hz.
Qed.

(** X2. Quantization clips and is monotone: a sample of 1 or more becomes
    32767, a sample of -1 or less becomes -32768, a sample in between becomes
    the floor of itself times 32768 unchanged, and a larger sample never
    gets a smaller code. *)
Theorem quantize_clips (x y : Q) :
  ((1 <= x)%Q -> quantize x = 32767%Z)
  /\ ((x <= -1)%Q -> quantize x = (-32768)%Z)
  /\ ((-1 <= x)%Q -> (x < 1)%Q -> quantize x = Qfloor (x * 32768))
  /\ ((x <= y)%Q -> (quantize x <= quantize y)%Z).
Proof.
  unfold quantize. repeat split.
  - intros H. pose proof (Qfloor_scaled_ge x 1 H). lia.
  - intros H.
    assert (Hf : (Qfloor (x * 32768) <= -32768)%Z).
    { rewrite <- (Qfloor_Z (-32768)). apply Qfloor_resp_le.
      change (inject_Z (-32768)) with ((-1) * 32768)%Q.
      apply Qmult_le_compat_r; [exact H|discriminate]. }
    lia.
  - intros Hlo Hhi.
    pose proof (Qfloor_scaled_ge x (-1) Hlo).
    pose proof (Qfloor_scaled_lt x 1 Hhi). lia.
  - intros H.
    assert (Hf : (Qfloor (x * 32768) <= Qfloor (y * 32768))%Z).
    { apply Qfloor_resp_le. apply Qmult_le_compat_r; [exact H|discriminate]. }
    lia.
Qed.

Lemma quantize_clips_witness :
  quantize (3 # 2) = 32767%Z /\ quantize (-2 # 1) = (-32768)%Z
  /\ quantize (1 # 4) = 8192%Z /\ (quantize (1 # 4) <= quantize (1 # 2))%Z.
Proof.
  destruct (quantize_clips (3 # 2) (3 # 2)) as (H1 & _).
  destruct (quantize_clips (-2 # 1) (-2 # 1)) as (_ & H2 & _).
  destruct (quantize_clips (1 # 4) (1 # 2)) as (_ & _ & H3 & H4).
  split; [apply H1; discriminate|].
  split; [apply H2; discriminate|].
  split; [rewrite H3; [reflexivity|discriminate|reflexivity]|].
  apply H4. discriminate.
Defined.

(** ** More on [dump] *)

Lemma concat_concat {A : Type} (groups : list (list (list A))) :
  List.concat (map (@List.concat A) groups) = List.concat (List.concat groups).
Proof.
  induction groups as [|g groups IH]; cbn; [reflexivity|].
  rewrite concat_app, IH. reflexivity.
Qed.

Lemma length_concat_nonempty {A : Type} (groups : list (list A)) :
  Forall (fun g => g <> []) groups ->
  List.length groups <= List.length (List.concat groups).
Proof.
  induction 1 as [|g groups Hg _ IH]; cbn; [lia|].
  rewrite length_app. destruct g; [congruence|cbn; lia].
Qed.

Lemma dump_groups maxOutputSize buffers :
  exists groups : list (list Uint8Array),
    dump maxOutputSize buffers = Some (map (@List.concat byte) groups, [])
    /\ List.concat groups = buffers
    /\ Forall (fun g => g <> []) groups
    /\ Forall (fun g => 2 <= List.length g ->
                        (totalLength g <= maxOutputSize)%Z) groups
    /\ greedy maxOutputSize groups.
Proof.
  destruct (dump_loop_spec maxOutputSize buffers (List.length buffers) 0 [])
    as (groups & Hrun & Hcat & Hne & Hbd & Hgr); [lia|].
  exists groups. unfold dump. rewrite Hrun. auto.
Qed.

(** X3. [dump] loses nothing: it returns, empties the worker's buffers, and
    the chunks put end to end are the bytes of the buffers put end to end;
    there are never more chunks than there were buffers. *)
Theorem dump_keeps_bytes (maxOutputSize : Z) (buffers : list Uint8Array) :
  exists out : list Uint8Array,
    dump maxOutputSize buffers = Some (out, [])
    /\ List.concat out = List.concat buffers
    /\ List.length out <= List.length buffers.
Proof.
  destruct (dump_groups maxOutputSize buffers)
    as (groups & Hd & Hcat & Hne & _).
  exists (map (@List.concat byte) groups). split; [exact Hd|].
  split.
  - rewrite concat_concat. f_equal. exact Hcat.
  - rewrite length_map, <- Hcat. apply length_concat_nonempty, Hne.
Qed.

(** X4. If no single buffer is longer than the limit, no chunk is. *)
Theorem dump_within_limit (maxOutputSize : Z) (buffers : list Uint8Array) :
  Forall (fun b => (byteLength b <= maxOutputSize)%Z) buffers ->
  exists out : list Uint8Array,
    dump maxOutputSize buffers = Some (out, [])
    /\ Forall (fun chunk => (byteLength chunk <= maxOutputSize)%Z) out.
Proof.
  intros Hfit.
  destruct (dump_groups maxOutputSize buffers)
    as (groups & Hd & Hcat & Hne & Hbd & _).
  exists (map (@List.concat byte) groups). split; [exact Hd|].
  apply Forall_forall. intros chunk Hin.
  apply in_map_iff in Hin as (g & <- & Hg).
  unfold byteLength at 1. rewrite length_concat_totalLength.
  rewrite Forall_forall in Hfit, Hbd.
  destruct g as [|b [|b' g]].
  - rewrite Forall_forall in Hne. specialize (Hne [] Hg). congruence.
  - cbn. assert (Hb : In b buffers).
    { rewrite <- Hcat. apply in_concat. exists [b].
      split; [exact Hg|now left]. }
    specialize (Hfit b Hb). lia.
  - apply (Hbd _ Hg). cbn. lia.
Qed.

Lemma dump_within_limit_witness :
  exists out,
    dump 4 [[x00; x01]; [x02; x03]; [x04]] = Some (out, [])
    /\ Forall (fun chunk => (byteLength chunk <= 4)%Z) out.
Proof.
  apply dump_within_limit.
  repeat constructor; vm_compute; discriminate.
Defined.

(** X5. If everything accumulated fits the limit, [dump] returns it as one
    chunk. *)
Theorem dump_one_chunk (maxOutputSize : Z) (buffers : list Uint8Array) :
  buffers <> [] ->
  (totalLength buffers <= maxOutputSize)%Z ->
  dump maxOutputSize buffers = Some ([List.concat buffers], []).
Proof.
  intros Hne Htot.
  destruct (dump_groups maxOutputSize buffers)
    as (groups & Hd & Hcat & Hgne & _ & Hgr).
  rewrite Hd. f_equal. f_equal.
  destruct groups as [|g [|g' groups]].
  - cbn in Hcat. congruence.
  - cbn in Hcat |- *. rewrite app_nil_r in Hcat. subst g. reflexivity.
  - exfalso. inversion Hgne as [|? ? _ Hrest]; subst.
    inversion Hrest as [|? ? Hg' _]; subst.
    destruct g' as [|next g']; [congruence|].
    cbn [greedy] in Hgr. destruct Hgr as [Hover _].
    cbn [List.concat] in Htot.
    rewrite !totalLength_app in Htot. cbn [totalLength fold_right] in Htot.
    fold (totalLength g') in Htot.
    pose proof (totalLength_nonneg g').
    pose proof (totalLength_nonneg (List.concat groups)).
    lia.
Qed.

Lemma dump_one_chunk_witness :
  dump 5 [[x00; x01]; [x02; x03]; [x04]]
  = Some ([[x00; x01; x02; x03; x04]], []).
Proof.
  apply (dump_one_chunk 5 [[x00; x01]; [x02; x03]; [x04]]).
  - discriminate.
  - vm_compute. discriminate.
Defined.

(** ** The worker over several messages *)

Lemma process_encodes blocks : forall rest buffers,
  process (map Encode blocks ++ rest) buffers =
  process rest (buffers ++ map pcm blocks).
Proof.
  induction blocks as [|b blocks IH]; intros rest buffers.
  - cbn. rewrite app_nil_r. reflexivity.
  - cbn [map app process onmessage]. rewrite IH.
    change (encode b buffers) with (buffers ++ [pcm b]).
    rewrite <- app_assoc. cbn [app].
    destruct (process rest (buffers ++ pcm b :: map pcm blocks))
      as [[posted' buffers'']|]; reflexivity.
Qed.

(** X6. After a [reset], whatever had been accumulated is gone for good: a
    [dump] that follows some [encode]s posts chunks that, end to end, are
    exactly the bytes of the blocks encoded since the reset, and leaves the
    worker empty. *)
Theorem worker_posts_what_was_encoded
        (stale : list Uint8Array) (blocks : list (list Q))
        (maxOutputSize : Z) :
  exists posted : list Uint8Array,
    process (Reset :: map Encode blocks ++ [Dump maxOutputSize]) stale
    = Some (posted, [])
    /\ List.concat posted = List.concat (map pcm blocks).
Proof.
  destruct (dump_groups maxOutputSize (map pcm blocks))
    as (groups & Hd & Hcat & _).
  exists (map (@List.concat byte) groups).
  split; [|rewrite concat_concat; f_equal; exact Hcat].
  cbn [process onmessage]. rewrite process_encodes.
  cbn [app process onmessage]. rewrite Hd. cbn. rewrite app_nil_r.
  reflexivity.
Qed.

Lemma process_app cmds1 : forall cmds2 buffers,
  process (cmds1 ++ cmds2) buffers =
  match process cmds1 buffers with
  | Some (posted1, buffers1) =>
      match process cmds2 buffers1 with
      | Some (posted2, buffers2) => Some (posted1 ++ posted2, buffers2)
      | None => None
      end
  | None => None
  end.
Proof.
  induction cmds1 as [|cmd cmds1 IH]; intros cmds2 buffers; cbn [app process].
  - destruct (process cmds2 buffers) as [[? ?]|]; reflexivity.
  - destruct (onmessage cmd buffers) as [[posted buffers']|]; [|reflexivity].
    rewrite IH.
    destruct (process cmds1 buffers') as [[posted1 buffers1]|]; [|reflexivity].
    destruct (process cmds2 buffers1) as [[posted2 buffers2]|]; [|reflexivity].
    rewrite app_assoc. reflexivity.
Qed.

Lemma process_conserves cmds : forall buffers,
  forallb (fun cmd => negb (is_reset cmd)) cmds = true ->
  exists posted buffers',
    process cmds buffers = Some (posted, buffers')
    /\ List.concat posted ++ List.concat buffers' =
       List.concat buffers ++ List.concat (map pcm (encoded cmds)).
Proof.
  induction cmds as [|cmd cmds IH]; intros buffers Hnr.
  - exists [], buffers. split; [reflexivity|]. cbn. rewrite app_nil_r.
    reflexivity.
  - cbn [forallb] in Hnr. apply andb_true_iff in Hnr as [Hcmd Hnr].
    destruct cmd as [samples|limit|]; [| |discriminate Hcmd].
    + destruct (IH (encode samples buffers) Hnr)
        as (posted & buffers' & Hp & Hc).
      exists posted, buffers'. cbn [process onmessage]. rewrite Hp.
      split; [reflexivity|]. rewrite Hc.
      change (encode samples buffers) with (buffers ++ [pcm samples]).
      cbn [encoded map List.concat]. rewrite concat_app. cbn [List.concat].
      rewrite app_nil_r, <- app_assoc. reflexivity.
    + destruct (dump_groups limit buffers) as (groups & Hd & Hcat & _).
      destruct (IH [] Hnr) as (posted & buffers' & Hp & Hc).
      exists (map (@List.concat byte) groups ++ posted), buffers'.
      cbn [process onmessage]. rewrite Hd, Hp. split; [reflexivity|].
      rewrite concat_app, <- app_assoc, Hc. cbn [encoded List.concat app].
      rewrite concat_concat. f_equal. f_equal. exact Hcat.
Qed.

(** X7. Over any sequence of [encode] and [dump] messages the worker
    neither loses nor repeats a byte: the chunks posted, end to end, followed
    by what is still buffered, are the bytes buffered at the beginning
    followed by the bytes of the blocks encoded since. *)
Theorem worker_conserves_bytes
        (cmds : list command) (buffers : list Uint8Array) :
  forallb (fun cmd => negb (is_reset cmd)) cmds = true ->
  exists posted buffers',
    process cmds buffers = Some (posted, buffers')
    /\ List.concat posted ++ List.concat buffers' =
       List.concat buffers ++ List.concat (map pcm (encoded cmds)).
Proof. apply process_conserves. Qed.

Lemma worker_conserves_bytes_witness :
  exists posted buffers',
    process [Encode [(1 # 2)%Q]; Dump 4; Encode [(-1 # 1)%Q];
             Encode [(0 # 1)%Q]]
            [[x07]]
    = Some (posted, buffers')
    /\ List.concat posted ++ List.concat buffers'
       = [x07; x00; x40; x00; x80; x00; x00].
Proof.
  exact (worker_conserves_bytes
           [Encode [(1 # 2)%Q]; Dump 4; Encode [(-1 # 1)%Q]; Encode [(0 # 1)%Q]]
           [[x07]] eq_refl).
Defined.

End EncoderFacts.

(* ================================================================== *)
(** * Part III, continued.  Properties of the polyfill's recorder       *)
(* ================================================================== *)

Module PolyfillFacts.
Import Encoder Polyfill.
Local Open Scope string_scope.
Local Open Scope list_scope.

Lemma posted_app acts1 : forall acts2,
  posted (acts1 ++ acts2) =
  match posted acts1, posted acts2 with
  | Some cmds1, Some cmds2 => Some (cmds1 ++ cmds2)
  | _, _ => None
  end.
Proof.
  induction acts1 as [|a acts1 IH]; intros acts2; cbn [app posted].
  - destruct (posted acts2); reflexivity.
  - destruct a as [| [samples|[limit|]|] | | | | | | | | | | | | | ];
      rewrite ?IH; try reflexivity;
      destruct (posted acts1), (posted acts2); reflexivity.
Qed.

Lemma dispatched_app acts1 : forall acts2,
  dispatched (acts1 ++ acts2) = dispatched acts1 ++ dispatched acts2.
Proof.
  induction acts1 as [|a acts1 IH]; intros acts2; cbn [app dispatched].
  - reflexivity.
  - destruct a; rewrite ?IH; reflexivity.
Qed.

Lemma performAll_app cs1 : forall cs2 pr,
  performAll (cs1 ++ cs2) pr =
  let '(p1, r1, acts1) := performAll cs1 pr in
  let '(p2, r2, acts2) := performAll cs2 (p1, r1) in
  (p2, r2, acts1 ++ acts2).
Proof.
  induction cs1 as [|c cs1 IH]; intros cs2 pr; cbn [app performAll].
  - destruct pr as [p r]. destruct (performAll cs2 (p, r)) as [[p2 r2] acts2].
    reflexivity.
  - destruct (perform c pr) as [[p1 r1] acts1]. rewrite IH.
    destruct (performAll cs1 (p1, r1)) as [[p2 r2] acts2].
    destruct (performAll cs2 (p2, r2)) as [[p3 r3] acts3].
    rewrite app_assoc. reflexivity.
Qed.

(** While recording, the audio callback and the timer only post. *)
Lemma capture_run limit cs : forall p r,
  forallb is_capture cs = true ->
  state r = recording ->
  maxOutputSize r = Some limit ->
  exists acts,
    performAll cs (p, r) = (p, r, acts)
    /\ posted acts = Some (flat_map (captured limit) cs)
    /\ dispatched acts = [].
Proof.
  induction cs as [|c cs IH]; intros p r Hcap Hst Hmax.
  - exists []. repeat split.
  - cbn [forallb] in Hcap. apply andb_true_iff in Hcap as [Hc Hcap].
    destruct (IH p r Hcap Hst Hmax) as (acts & Hrun & Hpost & Hdis).
    destruct c; try discriminate Hc; cbn [performAll perform].
    + unfold onaudioprocess. rewrite Hst, Hrun.
      eexists. split; [reflexivity|]. cbn. rewrite Hpost, Hdis. auto.
    + unfold onInterval, requestData. rewrite Hst, Hmax, Hrun.
      eexists. split; [reflexivity|]. cbn. rewrite Hpost, Hdis. auto.
Qed.

Lemma encoded_captured limit cs :
  forallb is_capture cs = true ->
  encoded (flat_map (captured limit) cs) = heard cs.
Proof.
  induction cs as [|c cs IH]; intros Hcap; [reflexivity|].
  cbn [forallb] in Hcap. apply andb_true_iff in Hcap as [Hc Hcap].
  destruct c; try discriminate Hc; cbn; rewrite (IH Hcap); reflexivity.
Qed.

Lemma captured_no_reset limit cs :
  forallb (fun cmd => negb (is_reset cmd)) (flat_map (captured limit) cs)
  = true.
Proof.
  induction cs as [|c cs IH]; [reflexivity|].
  destruct c; cbn; exact IH.
Qed.

(** [start] on a new recorder. *)
Lemma start_new timeslice limit p :
  exists p' r' acts,
    start timeslice (Some limit) p new_MediaRecorder = (p', r', acts)
    /\ state r' = recording
    /\ maxOutputSize r' = Some limit
    /\ posted acts = Some []
    /\ dispatched acts = [StartEvent].
Proof.
  unfold start. cbn [state new_MediaRecorder].
  do 3 eexists. split; [reflexivity|]. cbn [state maxOutputSize].
  repeat split;
    destruct p as [[] []], timeslice as [t|];
    try destruct (truthy (Some t)); reflexivity.
Qed.

(** A whole recording, and the worker fed with what it posted. *)
Lemma recording_run timeslice limit capture p :
  forallb is_capture capture = true ->
  exists p' r' acts chunks,
    performAll (Start timeslice (Some limit) :: capture ++ [Stop])
               (p, new_MediaRecorder) = (p', r', acts)
    /\ state r' = inactive
    /\ dispatched acts = [StartEvent]
    /\ posted acts =
       Some (flat_map (captured limit) capture ++ [Dump limit; Reset])
    /\ process (flat_map (captured limit) capture ++ [Dump limit; Reset]) []
       = Some (chunks, [])
    /\ List.concat chunks = List.concat (map pcm (heard capture)).
Proof.
  intros Hcap.
  destruct (start_new timeslice limit p)
    as (p1 & r1 & acts1 & Hstart & Hst1 & Hmax1 & Hpost1 & Hdis1).
  destruct (capture_run limit capture p1 r1 Hcap Hst1 Hmax1)
    as (acts2 & Hrun2 & Hpost2 & Hdis2).
  destruct (EncoderFacts.process_conserves
              (flat_map (captured limit) capture) []
              (captured_no_reset limit capture))
    as (posted1 & buffers1 & Hproc1 & Hcons).
  destruct (EncoderFacts.dump_groups limit buffers1)
    as (groups & Hd & Hcat & _).
  exists p1.
  exists {| state := inactive; maxOutputSize := maxOutputSize r1;
            slicing := slicing r1; clone := false; input := false |}.
  eexists. exists (posted1 ++ map (@List.concat byte) groups).
  split.
  { cbn [performAll perform]. rewrite Hstart, performAll_app, Hrun2.
    cbn [performAll perform]. unfold stop, requestData. rewrite Hst1, Hmax1.
    reflexivity. }
  cbn [state]. split; [reflexivity|]. split; [|split; [|split]].
  - rewrite !dispatched_app, Hdis1, Hdis2. reflexivity.
  - rewrite !posted_app, Hpost1, Hpost2. reflexivity.
  - rewrite EncoderFacts.process_app, Hproc1. cbn [process onmessage].
    rewrite Hd. cbn. rewrite app_nil_r. reflexivity.
  - rewrite concat_app, EncoderFacts.concat_concat.
    rewrite (encoded_captured limit capture Hcap) in Hcons.
    cbn [List.concat app] in Hcons. rewrite <- Hcons. f_equal. f_equal.
    exact Hcat.
Qed.

(** X8. A recording from [start] to [stop], with the audio callback and the
    interval timer firing in any order in between, hands the worker
    messages that it answers with chunks which, end to end, are exactly the
    encoded audio blocks in the order they were heard; the worker is left
    empty, the recorder inactive, and the calls themselves dispatch the
    start event and nothing else. *)
Theorem recording_delivers_the_audio
        (timeslice : option Z) (limit : Z) (capture : list call) (p : Page) :
  forallb is_capture capture = true ->
  exists p' r' acts cmds chunks,
    performAll (Start timeslice (Some limit) :: capture ++ [Stop])
               (p, new_MediaRecorder) = (p', r', acts)
    /\ state r' = inactive
    /\ dispatched acts = [StartEvent]
    /\ posted acts = Some cmds
    /\ process cmds [] = Some (chunks, [])
    /\ List.concat chunks = List.concat (map pcm (heard capture)).
Proof.
  intros Hcap.
  destruct (recording_run timeslice limit capture p Hcap)
    as (p' & r' & acts & chunks & H1 & H2 & H3 & H4 & H5 & H6).
  exists p', r', acts. eexists. exists chunks. eauto 10.
Qed.

Lemma recording_delivers_the_audio_witness :
  exists p' r' acts cmds chunks,
    performAll [Start (Some 100%Z) (Some 4%Z);
                AudioProcess [(1 # 2)%Q; (-1 # 1)%Q]; Interval;
                AudioProcess [(0 # 1)%Q]; Stop]
               ({| context := false; processor := false |},
                new_MediaRecorder) = (p', r', acts)
    /\ state r' = inactive
    /\ dispatched acts = [StartEvent]
    /\ posted acts = Some cmds
    /\ process cmds [] = Some (chunks, [])
    /\ List.concat chunks = [x00; x40; x00; x80; x00; x00].
Proof.
  exact (recording_delivers_the_audio
           (Some 100%Z) 4
           [AudioProcess [(1 # 2)%Q; (-1 # 1)%Q]; Interval;
            AudioProcess [(0 # 1)%Q]]
           {| context := false; processor := false |} eq_refl).
Defined.

(** The worker's answers handed to the recorder's listener. *)
Lemma deliver_run chunks : forall p r,
  exists acts,
    performAll (map WorkerMessageIn chunks) (p, r) = (p, r, acts)
    /\ dispatched acts =
       flat_map (fun chunk =>
                   DataAvailableEvent chunk
                   :: match state r with
                      | inactive => [StopEvent]
                      | recording => []
                      end) chunks.
Proof.
  induction chunks as [|chunk chunks IH]; intros p r.
  - exists []. split; reflexivity.
  - destruct (IH p r) as (acts & Hrun & Hdis).
    cbn [map performAll perform]. rewrite Hrun.
    eexists. split; [reflexivity|].
    unfold onWorkerMessage. rewrite dispatched_app.
    cbn [flat_map]. rewrite <- Hdis.
    destruct (state r); reflexivity.
Qed.

Lemma capture_blocks limit blocks :
  forallb is_capture (map AudioProcess blocks) = true
  /\ flat_map (captured limit) (map AudioProcess blocks) = map Encode blocks
  /\ heard (map AudioProcess blocks) = blocks.
Proof.
  induction blocks as [|b blocks (H1 & H2 & H3)]; [repeat split|].
  cbn. rewrite H2, H3. auto.
Qed.

(** X9. Without an interval, everything recorded comes after [stop]: the
    worker answers the final [dump] with chunks, and the recorder
    dispatches, for each chunk in turn, a data event with that chunk and
    then a stop event.  So the stop event is dispatched once per chunk, at
    least once when some block was heard, and not at all when none was. *)
Theorem stop_event_follows_each_chunk
        (limit : Z) (blocks : list (list Q)) (p : Page) :
  exists p' r' acts cmds chunks acts',
    performAll (Start None (Some limit) :: map AudioProcess blocks ++ [Stop])
               (p, new_MediaRecorder) = (p', r', acts)
    /\ posted acts = Some cmds
    /\ process cmds [] = Some (chunks, [])
    /\ performAll (map WorkerMessageIn chunks) (p', r') = (p', r', acts')
    /\ dispatched acts' =
       flat_map (fun chunk => [DataAvailableEvent chunk; StopEvent]) chunks
    /\ (blocks = [] -> dispatched acts' = [])
    /\ (blocks <> [] -> chunks <> []).
Proof.
  destruct (capture_blocks limit blocks) as (Hcap & Hflat & Hheard).
  destruct (recording_run None limit (map AudioProcess blocks) p Hcap)
    as (p' & r' & acts & chunks & Hrun & Hst & _ & Hpost & Hproc & _).
  destruct (deliver_run chunks p' r') as (acts' & Hdel & Hdis).
  rewrite Hst in Hdis.
  exists p', r', acts. eexists. exists chunks, acts'.
  split; [exact Hrun|]. split; [exact Hpost|]. split; [exact Hproc|].
  split; [exact Hdel|]. split; [exact Hdis|].
  rewrite Hflat, EncoderFacts.process_encodes in Hproc.
  cbn [app process onmessage] in Hproc.
  destruct (EncoderFacts.dump_groups limit (map pcm blocks))
    as (groups & Hd & Hcat & _).
  rewrite Hd in Hproc. cbn in Hproc. rewrite app_nil_r in Hproc.
  injection Hproc as Hchunks. split.
  - intros ->. cbn [map] in Hd. rewrite EncoderFacts.dump_empty in Hd.
    injection Hd as Hg. rewrite Hdis, <- Hchunks, <- Hg. reflexivity.
  - intros Hb Hnil. rewrite <- Hchunks in Hnil.
    apply map_eq_nil in Hnil. subst groups. cbn in Hcat.
    destruct blocks; [congruence|discriminate Hcat].
Qed.

Lemma clones_app acts1 acts2 :
  clones (acts1 ++ acts2) = clones acts1 + clones acts2
  /\ cloneStops (acts1 ++ acts2) = cloneStops acts1 + cloneStops acts2.
Proof.
  induction acts1 as [|a acts1 [IH1 IH2]]; [split; reflexivity|].
  destruct a; cbn; rewrite ?IH1, ?IH2; split; reflexivity.
Qed.

Lemma perform_clones c p r :
  clone r = match state r with recording => true | inactive => false end ->
  let '(p', r', acts) := perform c (p, r) in
  clone r' = match state r' with recording => true | inactive => false end
  /\ clones acts + (if clone r then 1 else 0)
     = cloneStops acts + (if clone r' then 1 else 0).
Proof.
  intros Hinv. destruct r as [st mx sl cl inp]. cbn in Hinv. subst cl.
  destruct c, st; cbn; try (split; reflexivity);
    destruct p as [[] []];
    try match goal with
        | |- context [truthy ?t] => destruct t as [z|]; cbn;
                                    try destruct (z =? 0)%Z
        end; cbn; split; reflexivity.
Qed.

(** X10. However a recorder is used, from the moment it is constructed,
    every cloned stream it opens is stopped again: the streams opened
    outnumber the streams stopped by one while it is recording and by none
    while it is inactive. *)
Theorem recorder_stops_every_clone (cs : list call) (p : Page) :
  let '(p', r', acts) := performAll cs (p, new_MediaRecorder) in
  clones acts =
  cloneStops acts + match state r' with recording => 1 | inactive => 0 end.
Proof.
  assert (H : forall cs p r,
    clone r = match state r with recording => true | inactive => false end ->
    let '(p', r', acts) := performAll cs (p, r) in
    clone r' = match state r' with recording => true | inactive => false end
    /\ clones acts + (if clone r then 1 else 0)
       = cloneStops acts + (if clone r' then 1 else 0)).
  { clear. induction cs as [|c cs IH]; intros p r Hinv; cbn [performAll].
    - split; [exact Hinv|reflexivity].
    - pose proof (perform_clones c p r Hinv) as Hstep.
      destruct (perform c (p, r)) as [[p1 r1] acts1].
      destruct Hstep as [Hinv1 Hcount1].
      specialize (IH p1 r1 Hinv1).
      destruct (performAll cs (p1, r1)) as [[p2 r2] acts2].
      destruct IH as [Hinv2 Hcount2]. split; [exact Hinv2|].
      destruct (clones_app acts1 acts2) as [-> ->]. lia. }
  specialize (H cs p new_MediaRecorder eq_refl).
  destruct (performAll cs (p, new_MediaRecorder)) as [[p' r'] acts].
  destruct H as [Hinv Hcount]. rewrite Hinv in Hcount. cbn in Hcount.
  destruct (state r'); lia.
Qed.

End PolyfillFacts.

(* ================================================================== *)
(** * Part IV.  Properties of the session                               *)
(* ================================================================== *)

Module WebVoiceFacts.
Import WebVoice.
Local Open Scope string_scope.
Local Open Scope list_scope.
Local Open Scope nat_scope.

(** ** The close-reason pattern *)

Section StatusMessage.

Lemma all_chars_nil p : all_chars p "".
Proof. constructor. Qed.

Lemma all_chars_cons p c s :
  all_chars p (String c s) <-> p c = true /\ all_chars p s.
Proof.
  unfold all_chars. cbn. split.
  - intros H. inversion H; subst. auto.
  - intros [H1 H2]. constructor; assumption.
Qed.

Lemma take_token_spec s : forall tok rest,
  take_token s = (tok, rest) ->
  s = (tok ++ rest)%string /\ all_chars is_token_char tok
  /\ stops is_token_char rest.
Proof.
  induction s as [|c s IH]; cbn [take_token]; intros tok rest H.
  - injection H as <- <-. repeat split. apply all_chars_nil.
  - destruct (is_token_char c) eqn:Hc.
    + destruct (take_token s) as [tok' rest'].
      injection H as <- <-.
      destruct (IH _ _ eq_refl) as (-> & Hall & Hstop).
      repeat split; [|exact Hstop].
      apply all_chars_cons. auto.
    + injection H as <- <-. repeat split; [apply all_chars_nil|exact Hc].
Qed.

Lemma take_token_app tok : forall rest,
  all_chars is_token_char tok -> stops is_token_char rest ->
  take_token (tok ++ rest) = (tok, rest).
Proof.
  induction tok as [|c tok IH]; intros rest Hall Hstop.
  - cbn [append]. destruct rest as [|c r]; [reflexivity|].
    cbn in Hstop |- *. rewrite Hstop. reflexivity.
  - apply all_chars_cons in Hall as [Hc Hall].
    cbn [append take_token]. rewrite Hc, (IH _ Hall Hstop). reflexivity.
Qed.

Lemma skip_spaces_spec s :
  exists spaces,
    s = (spaces ++ skip_spaces s)%string
    /\ all_chars is_space spaces
    /\ stops is_space (skip_spaces s).
Proof.
  induction s as [|c s (spaces & Hs & Hall & Hstop)]; cbn [skip_spaces].
  - exists "". repeat split. apply all_chars_nil.
  - destruct (Ascii.eqb c " ") eqn:Hc.
    + exists (String c spaces). cbn [append]. rewrite <- Hs.
      repeat split; [|exact Hstop]. apply all_chars_cons. auto.
    + exists "". repeat split; [apply all_chars_nil|exact Hc].
Qed.

Lemma skip_spaces_app spaces : forall rest,
  all_chars is_space spaces -> stops is_space rest ->
  skip_spaces (spaces ++ rest) = rest.
Proof.
  induction spaces as [|c spaces IH]; intros rest Hall Hstop.
  - cbn [append]. destruct rest as [|c r]; [reflexivity|].
    cbn in Hstop |- *. unfold is_space in Hstop. rewrite Hstop. reflexivity.
  - apply all_chars_cons in Hall as [Hc Hall]. unfold is_space in Hc.
    cbn [append skip_spaces]. rewrite Hc. apply IH; assumption.
Qed.

(** The matcher finds exactly the strings of the pattern, with their
    groups: the greedy choices lose no match. *)
Lemma StatusMessageRegex_exec_shape reason status message :
  StatusMessageRegex_exec reason = Some (status, message)
  <-> StatusMessage_shape reason status message.
Proof.
  split.
  - unfold StatusMessageRegex_exec.
    destruct reason as [|c0 s1]; [discriminate|].
    destruct (Ascii.eqb c0 "<") eqn:H0; [|discriminate].
    apply Ascii.eqb_eq in H0. subst c0.
    destruct (take_token s1) as [tok r1] eqn:Htok.
    apply take_token_spec in Htok as (-> & Htokall & _).
    destruct tok as [|t0 tok]; [discriminate|].
    destruct r1 as [|c1 s2]; [discriminate|].
    destruct (Ascii.eqb c1 ">") eqn:H1; [|discriminate].
    apply Ascii.eqb_eq in H1. subst c1.
    destruct (skip_spaces_spec s2) as (spaces & Hs2 & Hsp & Hstop).
    intros H. exists spaces.
    assert (Hmsg : skip_spaces s2 = message /\ String t0 tok = status
                   /\ (message = "" \/
                       exists c tail, message = String c tail
                                      /\ c <> " "%char
                                      /\ dots_to_end tail = true)).
    { destruct (skip_spaces s2) as [|c tail] eqn:Hm.
      - injection H as <- <-. auto.
      - destruct (dots_to_end tail) eqn:Hd; [|discriminate].
        injection H as <- <-. split; [reflexivity|split; [reflexivity|]].
        right. exists c, tail. split; [reflexivity|split; [|exact Hd]].
        cbn in Hstop. unfold is_space in Hstop.
        apply Ascii.eqb_neq. exact Hstop. }
    destruct Hmsg as (Hm & <- & Hshape). rewrite Hm in Hs2.
    repeat split; [|discriminate|exact Htokall|exact Hsp|exact Hshape].
    cbn [append]. rewrite Hs2 at 1. reflexivity.
  - intros (spaces & -> & Hne & Htok & Hsp & Hmsg).
    unfold StatusMessageRegex_exec. cbn [append].
    rewrite Ascii.eqb_refl, take_token_app; [|exact Htok|reflexivity].
    destruct status as [|t0 tok]; [congruence|].
    rewrite Ascii.eqb_refl, skip_spaces_app; [|exact Hsp|].
    + destruct Hmsg as [-> | (c & tail & -> & _ & ->)]; reflexivity.
    + destruct Hmsg as [-> | (c & tail & -> & Hc & _)]; [exact I|].
      cbn. unfold is_space. apply Ascii.eqb_neq. exact Hc.
Qed.

End StatusMessage.

Example exec_eof_bracketed :
  StatusMessageRegex_exec "<eof>" = Some ("eof", "").
Proof. reflexivity. Qed.

Example exec_eof_bare : StatusMessageRegex_exec "eof" = None.
Proof. reflexivity. Qed.

Example exec_status_with_message :
  StatusMessageRegex_exec "<invalid_api_key>  Bad key." =
  Some ("invalid_api_key", "Bad key.").
Proof. reflexivity. Qed.

(** ** Merging results *)

Section Merge.

Lemma push_each {A B : Type} (g : A -> B) (l : list A) : forall acc,
  fold_left (fun ws x => ws ++ [g x]) l acc = acc ++ map g l.
Proof.
  induction l as [|x l IH]; intros acc; cbn.
  - symmetry. apply app_nil_r.
  - rewrite IH, <- app_assoc. reflexivity.
Qed.

Lemma resultFromResponse_words response :
  words (resultFromResponse response) =
  map finalWord (Wire.fw response) ++ map nonFinalWord (Wire.nfw response).
Proof.
  unfold resultFromResponse. cbn [words].
  rewrite !push_each. reflexivity.
Qed.

Lemma lastWord_snoc ws w : lastWord (ws ++ [w]) = Some w.
Proof.
  unfold lastWord. destruct (ws ++ [w]) eqn:E.
  - destruct ws; discriminate.
  - rewrite <- E, length_app, Nat.add_sub. cbn [List.length].
    rewrite nth_error_app2, Nat.sub_diag by lia. reflexivity.
Qed.

Lemma pop_nonfinal_settled fuel ws : settled ws -> pop_nonfinal fuel ws = ws.
Proof.
  unfold settled. destruct fuel as [|fuel]; cbn [pop_nonfinal]; [reflexivity|].
  destruct (lastWord ws) as [w|]; [|reflexivity].
  intros ->. reflexivity.
Qed.

(** The loop removes a trailing run of non-final words whole and stops at
    the word before it. *)
Lemma pop_nonfinal_run kept nf : forall fuel,
  Forall (fun w => is_final w = false) nf ->
  settled kept ->
  List.length nf <= fuel ->
  pop_nonfinal fuel (kept ++ nf) = kept.
Proof.
  induction nf as [|x nf IH] using rev_ind; intros fuel Hnf Hk Hfuel.
  - rewrite app_nil_r. apply pop_nonfinal_settled. exact Hk.
  - rewrite length_app in Hfuel. cbn in Hfuel.
    destruct fuel as [|fuel]; [lia|].
    apply Forall_app in Hnf as [Hnf Hx]. inversion Hx as [|? ? Hxf _]; subst.
    cbn [pop_nonfinal]. rewrite app_assoc, lastWord_snoc, Hxf. cbn [negb].
    rewrite removelast_last. apply IH; [exact Hnf|exact Hk|lia].
Qed.

Lemma split_trailing ws :
  exists kept nf,
    ws = kept ++ nf /\ Forall (fun w => is_final w = false) nf
    /\ settled kept.
Proof.
  induction ws as [|x ws (kept & nf & -> & Hnf & Hk)] using rev_ind.
  - exists [], []. repeat split. constructor.
  - destruct (is_final x) eqn:Hx.
    + exists ((kept ++ nf) ++ [x]), []. rewrite app_nil_r.
      repeat split; [constructor|].
      unfold settled. rewrite lastWord_snoc. exact Hx.
    + exists kept, (nf ++ [x]). rewrite app_assoc.
      repeat split; [|exact Hk].
      apply Forall_app. split; [exact Hnf|].
      constructor; [exact Hx|constructor].
Qed.

(** The fuel [_updateResult] gives the loop is enough: the loop ends
    because its condition is false. *)
Lemma pop_nonfinal_exit ws : settled (pop_nonfinal (List.length ws) ws).
Proof.
  destruct (split_trailing ws) as (kept & nf & -> & Hnf & Hk).
  rewrite pop_nonfinal_run; [exact Hk|exact Hnf|exact Hk|].
  rewrite length_app. lia.
Qed.

Lemma settled_finals F : Forall (fun w => is_final w = true) F -> settled F.
Proof.
  intros HF. unfold settled.
  destruct F as [|x F] using rev_ind; [exact I|].
  rewrite lastWord_snoc. apply Forall_app in HF as [_ HF].
  inversion HF; assumption.
Qed.

Lemma filter_finals F :
  Forall (fun w => is_final w = true) F -> filter is_final F = F.
Proof.
  induction 1 as [|x F Hx _ IH]; cbn; [reflexivity|].
  rewrite Hx, IH. reflexivity.
Qed.

Lemma filter_nonfinals NF :
  Forall (fun w => is_final w = false) NF -> filter is_final NF = [].
Proof.
  induction 1 as [|x NF Hx _ IH]; cbn; [reflexivity|].
  rewrite Hx, IH. reflexivity.
Qed.

Lemma finals_map js : Forall (fun w => is_final w = true) (map finalWord js).
Proof.
  apply Forall_forall. intros w Hin.
  apply in_map_iff in Hin as (j & <- & _). reflexivity.
Qed.

Lemma nonfinals_map js :
  Forall (fun w => is_final w = false) (map nonFinalWord js).
Proof.
  apply Forall_forall. intros w Hin.
  apply in_map_iff in Hin as (j & <- & _). reflexivity.
Qed.

Lemma updateResult_words newResult result :
  ordered (words result) ->
  words (_updateResult newResult result) =
  filter is_final (words result) ++ words newResult.
Proof.
  intros (F & NF & E & HF & HNF).
  unfold _updateResult. cbn [words]. rewrite E.
  rewrite pop_nonfinal_run;
    [|exact HNF|apply settled_finals; exact HF|rewrite length_app; lia].
  rewrite filter_app, (filter_finals _ HF), (filter_nonfinals _ HNF), app_nil_r.
  rewrite (push_each (fun w => w)), map_id. reflexivity.
Qed.

Lemma updateResult_ordered response result :
  ordered (words result) ->
  ordered (words (_updateResult (resultFromResponse response) result)).
Proof.
  intros Hord. rewrite (updateResult_words _ _ Hord), resultFromResponse_words.
  exists (filter is_final (words result) ++ map finalWord (Wire.fw response)),
         (map nonFinalWord (Wire.nfw response)).
  split; [apply app_assoc|]. split; [|apply nonfinals_map].
  apply Forall_app. split; [|apply finals_map].
  apply Forall_forall. intros w Hin. apply filter_In in Hin. tauto.
Qed.

Lemma fold_ordered rs : forall result,
  ordered (words result) ->
  ordered (words (fold_left
                    (fun result response =>
                       _updateResult (resultFromResponse response) result)
                    rs result)).
Proof.
  induction rs as [|r rs IH]; intros result H; cbn [fold_left].
  - exact H.
  - apply IH, updateResult_ordered, H.
Qed.

Lemma merged_ordered rs : ordered (words (merged rs)).
Proof.
  apply fold_ordered. exists [], []. repeat split; constructor.
Qed.

End Merge.

(** C2. Let [R1] be the result accumulated from any frames merged so far
    and [R2] an incoming frame.  After merging [R2] the words are the final
    words of [R1] followed by the words of [R2], its final ones first: the
    non-final words of [R1] are gone, the final words are those of [R1] then
    those of [R2], the non-final words are those of [R2] only; and both
    processing times are those of [R2]. *)
Theorem updateResult_merges (rs : list Wire.Response) (R2 : Wire.Response) :
  let R1 := merged rs in
  let R := _updateResult (resultFromResponse R2) R1 in
  merged (rs ++ [R2]) = R
  /\ words R = filter is_final (words R1)
               ++ map finalWord (Wire.fw R2) ++ map nonFinalWord (Wire.nfw R2)
  /\ filter is_final (words R) =
     filter is_final (words R1) ++ map finalWord (Wire.fw R2)
  /\ filter (fun w => negb (is_final w)) (words R) =
     map nonFinalWord (Wire.nfw R2)
  /\ final_proc_time_ms R = Wire.fpt R2
  /\ total_proc_time_ms R = Wire.tpt R2.
Proof.
  intros R1 R.
  assert (Hw : words R = filter is_final (words R1)
                         ++ map finalWord (Wire.fw R2)
                         ++ map nonFinalWord (Wire.nfw R2)).
  { subst R. rewrite (updateResult_words _ _ (merged_ordered rs)).
    rewrite resultFromResponse_words. reflexivity. }
  split; [|split; [exact Hw|split; [|split; [|split; reflexivity]]]].
  - unfold merged. rewrite fold_left_app. reflexivity.
  - rewrite Hw, !filter_app.
    rewrite (filter_finals _ (finals_map _)).
    rewrite (filter_nonfinals _ (nonfinals_map _)).
    rewrite app_nil_r. f_equal.
    apply filter_finals, Forall_forall. intros w Hin.
    apply filter_In in Hin. tauto.
  - rewrite Hw, !filter_app.
    assert (Hnone : forall l, Forall (fun w => is_final w = true) l ->
                              filter (fun w => negb (is_final w)) l = []).
    { induction 1 as [|x l Hx _ IH]; cbn; [reflexivity|].
      rewrite Hx. exact IH. }
    assert (HF1 : Forall (fun w => is_final w = true)
                         (filter is_final (words R1))).
    { apply Forall_forall. intros w Hin. apply filter_In in Hin. tauto. }
    rewrite (Hnone _ HF1), (Hnone _ (finals_map _)).
    cbn [app]. clear Hw.
    induction (Wire.nfw R2) as [|j js IH]; cbn; [reflexivity|].
    rewrite IH. reflexivity.
Qed.

Example merge_two_frames :
  words (merged
    [ {| Wire.fw := [{| Wire.t := "hi"; Wire.s := 0; Wire.d := 200 |}];
         Wire.nfw := [{| Wire.t := "the"; Wire.s := 200; Wire.d := 100 |};
                      {| Wire.t := "r"; Wire.s := 300; Wire.d := 50 |}];
         Wire.fpt := 10; Wire.tpt := 12 |};
      {| Wire.fw := [{| Wire.t := "there"; Wire.s := 200; Wire.d := 300 |}];
         Wire.nfw := [{| Wire.t := "wor"; Wire.s := 500; Wire.d := 90 |}];
         Wire.fpt := 20; Wire.tpt := 25 |} ])
  = [ {| text := "hi"; start_ms := 0; duration_ms := 200; is_final := true |};
      {| text := "there"; start_ms := 200; duration_ms := 300;
         is_final := true |};
      {| text := "wor"; start_ms := 500; duration_ms := 90;
         is_final := false |} ].
Proof. reflexivity. Qed.

(** ** The state machine *)

(** Callbacks are always the last thing a method does, so a call a callback
    makes back into the session is the same as that call arriving as the
    next event: the sequences of events below cover it. *)

Ltac break_world w :=
  let active := fresh "active" in
  let o := fresh "o" in
  destruct w as [active o];
  destruct o as [st inf key ctx onS onP onF onE uri ms mr mrs mrd ws res];
  cbn [this _state recordTranscribeActive _result _onFinished _onError
       _onStarted _onPartialResult _webSocket _mediaRecorder _mediaStream]
    in *.

(** Split on a field, a flag or a handle that the goal still branches
    on. *)
Ltac split_var :=
  match goal with
  | |- context [match ?x with _ => _ end] =>
      is_var x;
      lazymatch type of x with
      | option _ => destruct x
      | bool => destruct x
      | RecorderState => destruct x
      | MediaRecorder => destruct x
      end
  end.

(** Run the method of the goal, case by case. *)
Ltac crunch := vm_compute; repeat (split_var; vm_compute).

Lemma run_app es1 : forall es2 w,
  run (es1 ++ es2) w =
  (fst (run es2 (fst (run es1 w))),
   snd (run es1 w) ++ snd (run es2 (fst (run es1 w)))).
Proof.
  induction es1 as [|e es1 IH]; intros es2 w; cbn [run app].
  - cbn [fst snd]. destruct (run es2 w). reflexivity.
  - destruct (step e w) as [w1 out1]. rewrite IH.
    destruct (run es1 w1) as [w2 out2]. cbn [fst snd].
    rewrite app_assoc. reflexivity.
Qed.

(** *** Terminal states absorb every event *)

Lemma terminal_step e w :
  isTerminalState (_state (this w)) = true ->
  fst (step e w) = w /\ filter is_callback (snd (step e w)) = [].
Proof.
  break_world w. intros H.
  destruct st; try discriminate H; destruct e; cbn; auto.
Qed.

Lemma terminal_run es : forall w,
  isTerminalState (_state (this w)) = true ->
  fst (run es w) = w /\ filter is_callback (snd (run es w)) = [].
Proof.
  induction es as [|e es IH]; intros w H; cbn [run].
  - auto.
  - destruct (terminal_step e w H) as [Hw Hout].
    destruct (step e w) as [w1 out1]. cbn [fst snd] in Hw, Hout. subst w1.
    destruct (IH w H) as [Hw' Hout'].
    destruct (run es w) as [w2 out2]. cbn [fst snd] in *.
    split; [exact Hw'|]. rewrite filter_app, Hout, Hout'. reflexivity.
Qed.

Lemma no_callback_no_terminal_callback out :
  filter is_callback out = [] -> filter is_terminal_callback out = [].
Proof.
  induction out as [|e out IH]; cbn; [reflexivity|].
  destruct e; cbn; try discriminate; exact IH.
Qed.

(** *** The two ways into Error and Finished *)

Lemma filter_terminal_of_callbacks out :
  filter is_terminal_callback out =
  filter is_terminal_callback (filter is_callback out).
Proof.
  induction out as [|e out IH]; cbn; [reflexivity|].
  destruct e; cbn; rewrite <- ?IH; reflexivity.
Qed.

Lemma handleError_run status message w :
  outcome (_handleError status message) w = Normal tt
  /\ _state (this (fst (exec (_handleError status message) w))) = Error
  /\ recordTranscribeActive (fst (exec (_handleError status message) w))
     = false
  /\ _result (this (fst (exec (_handleError status message) w)))
     = _result (this w)
  /\ filter is_callback (snd (exec (_handleError status message) w)) =
     match _onError (this w) with
     | Some f => [CallOnError f status message]
     | None => []
     end.
Proof. break_world w. crunch; auto. Qed.

Lemma handleFinished_run w :
  outcome _handleFinished w = Normal tt
  /\ _state (this (fst (exec _handleFinished w))) = Finished
  /\ recordTranscribeActive (fst (exec _handleFinished w)) = false
  /\ _result (this (fst (exec _handleFinished w))) = _result (this w)
  /\ filter is_callback (snd (exec _handleFinished w)) =
     match _onFinished (this w) with
     | Some f => [CallOnFinished f]
     | None => []
     end.
Proof. break_world w. crunch; auto. Qed.

(** [_onWebSocketClose] past its guard. *)
Lemma onWebSocketClose_eq code reason w :
  isWebSocketState (_state (this w)) = true ->
  _onWebSocketClose code reason w =
  (if (code =? 1000)%N then
     match StatusMessageRegex_exec reason with
     | Some (status, message) =>
         if String.eqb status "eof" then
           if State_eqb (_state (this w)) Finishing
           then _handleFinished
           else _handleError "other_asr_error" "Unexpected EOF received."
         else _handleError status message
     | None => _handleError "other_asr_error" reason
     end
   else
     _handleError "websocket_closed"
                  ("WebSocket closed: code=" ++ decimal code
                   ++ ", reason=" ++ reason)%string) w.
Proof.
  intros Hws. unfold _onWebSocketClose, bind at 1, getThis.
  rewrite Hws. cbn [negb].
  match goal with |- match ?r with _ => _ end = _ =>
    destruct r as [[c w2] out2] end.
  reflexivity.
Qed.

Lemma onWebSocketClose_ignored code reason w :
  isWebSocketState (_state (this w)) = false ->
  _onWebSocketClose code reason w = (Normal tt, w, []).
Proof.
  intros Hws. unfold _onWebSocketClose, bind, getThis.
  rewrite Hws. reflexivity.
Qed.

(** One event invokes at most one terminal callback, and only on entering a
    terminal state. *)
Lemma step_terminal_callback e w :
  filter is_terminal_callback (snd (step e w)) = [] \/
  (List.length (filter is_terminal_callback (snd (step e w))) = 1
   /\ isTerminalState (_state (this (fst (step e w)))) = true).
Proof.
  destruct e;
    lazymatch goal with
    | |- context [WebSocketClose _ _] => idtac
    | _ => break_world w; destruct st; crunch; auto
    end.
  unfold step, exec, handle.
  destruct (isWebSocketState (_state (this w))) eqn:Hws.
  - rewrite (onWebSocketClose_eq _ _ _ Hws).
    assert (Herr : forall status message,
      filter is_terminal_callback
             (snd (exec (_handleError status message) w)) = [] \/
      (List.length (filter is_terminal_callback
                      (snd (exec (_handleError status message) w))) = 1
       /\ isTerminalState
            (_state (this (fst (exec (_handleError status message) w))))
          = true)).
    { intros status message.
      destruct (handleError_run status message w) as (_ & -> & _ & _ & Hcb).
      rewrite filter_terminal_of_callbacks, Hcb.
      destruct (_onError (this w)); cbn; auto. }
    assert (Hfin :
      filter is_terminal_callback (snd (exec _handleFinished w)) = [] \/
      (List.length (filter is_terminal_callback
                      (snd (exec _handleFinished w))) = 1
       /\ isTerminalState (_state (this (fst (exec _handleFinished w))))
          = true)).
    { destruct (handleFinished_run w) as (_ & -> & _ & _ & Hcb).
      rewrite filter_terminal_of_callbacks, Hcb.
      destruct (_onFinished (this w)); cbn; auto. }
    unfold exec in Herr, Hfin.
    destruct (code =? 1000)%N; [|apply Herr].
    destruct (StatusMessageRegex_exec reason) as [[status message]|];
      [|apply Herr].
    destruct (String.eqb status "eof"); [|apply Herr].
    destruct (State_eqb (_state (this w)) Finishing);
      [apply Hfin|apply Herr].
  - rewrite (onWebSocketClose_ignored _ _ _ Hws). cbn. auto.
Qed.

Lemma run_terminal_callback es : forall w,
  List.length (filter is_terminal_callback (snd (run es w))) <= 1.
Proof.
  induction es as [|e es IH]; intros w; cbn [run].
  - cbn. lia.
  - pose proof (step_terminal_callback e w) as Hstep.
    destruct (step e w) as [w1 out1]. cbn [fst snd] in Hstep.
    specialize (IH w1).
    destruct (run es w1) as [w2 out2] eqn:Hrun. cbn [fst snd] in *.
    rewrite filter_app, length_app.
    destruct Hstep as [-> | [Hone Hterm]]; [cbn; lia|].
    destruct (terminal_run es w1 Hterm) as [_ Hnone].
    rewrite Hrun in Hnone. cbn [snd] in Hnone.
    rewrite (no_callback_no_terminal_callback _ Hnone). cbn. lia.
Qed.

(** C5. Once the session is in Finished, Error or Canceled, whatever
    happens next (any method call, any capture, recorder or channel event,
    the deferred completion) leaves the whole session, its state and its
    result included, as it is and invokes no callback; and over any sequence
    of events the finished and error callbacks are invoked at most once in
    total. *)
Theorem terminal_state_is_final (w : world) (before after : list event) :
  let w1 := fst (run before w) in
  (isTerminalState (_state (this w1)) = true ->
     fst (run (before ++ after) w) = w1
     /\ snd (run (before ++ after) w) = snd (run before w) ++ snd (run after w1)
     /\ filter is_callback (snd (run after w1)) = [])
  /\ List.length
       (filter is_terminal_callback (snd (run (before ++ after) w))) <= 1.
Proof.
  intros w1. split; [|apply run_terminal_callback].
  intros Hterm. rewrite run_app. cbn [fst snd]. fold w1.
  destruct (terminal_run after w1 Hterm) as [Hw Hout]. auto.
Qed.

(** A session that failed to get the microphone stays in Error through a
    stop, a cancel, a graceful close and a late grant. *)
Lemma terminal_state_is_final_witness :
  let after := [Call_stop; Call_cancel; WebSocketClose 1000 "<eof>";
                GetUserMediaSuccess 7; CompleteFinishingEarly; Call_start] in
  _state (this (fst (run ([Call_start; GetUserMediaError] ++ after)
                         registered))) = Error
  /\ filter is_callback (snd (run ([Call_start; GetUserMediaError] ++ after)
                                  registered))
     = [CallOnError 4 "get_user_media_failed" "Failed to get user media."].
Proof.
  intros after.
  destruct (terminal_state_is_final registered
              [Call_start; GetUserMediaError] after) as [Habs _].
  destruct (Habs eq_refl) as (Hw & Hout & Hnone).
  rewrite Hw, Hout, filter_app, Hnone. split; reflexivity.
Defined.

(** *** The result of a session is a merge of frames *)

Lemma message_merges response w :
  _state (this w) = Running \/ _state (this w) = Finishing ->
  _result (this (fst (step (WebSocketMessage (Some response)) w))) =
  _updateResult (resultFromResponse response) (_result (this w)).
Proof.
  break_world w. intros [-> | ->]; destruct onP; reflexivity.
Qed.

Lemma step_result e w :
  _result (this (fst (step e w))) = _result (this w)
  \/ exists response,
       _result (this (fst (step e w))) =
       _updateResult (resultFromResponse response) (_result (this w)).
Proof.
  destruct e;
    lazymatch goal with
    | |- context [WebSocketClose _ _] => idtac
    | |- context [WebSocketMessage _] => idtac
    | _ => left; break_world w; destruct st; crunch; reflexivity
    end.
  - left. unfold step, exec, handle.
    destruct (isWebSocketState (_state (this w))) eqn:Hws.
    + rewrite (onWebSocketClose_eq _ _ _ Hws).
      pose proof (fun status message =>
                    proj1 (proj2 (proj2 (proj2
                      (handleError_run status message w))))) as Herr.
      pose proof (proj1 (proj2 (proj2 (proj2 (handleFinished_run w)))))
        as Hfin.
      unfold exec in Herr, Hfin.
      destruct (code =? 1000)%N; [|apply Herr].
      destruct (StatusMessageRegex_exec reason) as [[status message]|];
        [|apply Herr].
      destruct (String.eqb status "eof"); [|apply Herr].
      destruct (State_eqb (_state (this w)) Finishing);
        [apply Hfin|apply Herr].
    + rewrite (onWebSocketClose_ignored _ _ _ Hws). reflexivity.
  - destruct data as [response|].
    + destruct (State_eqb (_state (this w)) Running
                || State_eqb (_state (this w)) Finishing) eqn:Hst.
      * right. exists response. apply message_merges.
        destruct (_state (this w)); try discriminate Hst; auto.
      * left. break_world w. destruct st; try discriminate Hst; reflexivity.
    + left. break_world w. destruct st; reflexivity.
Qed.

Lemma run_result es : forall w rs,
  _result (this w) = merged rs ->
  exists rs', _result (this (fst (run es w))) = merged (rs ++ rs').
Proof.
  induction es as [|e es IH]; intros w rs Hw; cbn [run].
  - exists []. rewrite app_nil_r. exact Hw.
  - pose proof (step_result e w) as Hstep.
    destruct (step e w) as [w1 out1]. cbn [fst] in Hstep.
    destruct Hstep as [Hsame | [response Hnew]].
    + destruct (IH w1 rs) as [rs' Hrs']; [congruence|].
      destruct (run es w1) as [w2 out2]. exists rs'. exact Hrs'.
    + destruct (IH w1 (rs ++ [response])) as [rs' Hrs'].
      { rewrite Hnew, Hw. unfold merged. rewrite fold_left_app. reflexivity. }
      destruct (run es w1) as [w2 out2]. exists (response :: rs').
      rewrite <- app_assoc in Hrs'. exact Hrs'.
Qed.

(** Whatever happens to a session, its accumulated result is the merge of
    some sequence of frames, so its words are ordered. *)
Lemma session_result_merged es :
  exists rs, _result (this (fst (run es fresh))) = merged rs.
Proof.
  destruct (run_result es fresh [] eq_refl) as [rs Hrs].
  exists rs. exact Hrs.
Qed.

(** *** No method dereferences a missing handle *)

Lemma consistent_step e w :
  consistent w = true -> consistent (fst (step e w)) = true.
Proof.
  intros Hc.
  destruct e;
    lazymatch goal with
    | |- context [WebSocketClose _ _] => idtac
    | _ => break_world w; destruct st, ws, mr;
           try discriminate Hc; crunch; reflexivity
    end.
  unfold step, exec, handle.
  destruct (isWebSocketState (_state (this w))) eqn:Hws.
  - rewrite (onWebSocketClose_eq _ _ _ Hws).
    assert (Herr : forall status message,
               consistent (fst (exec (_handleError status message) w)) = true).
    { intros status message. unfold consistent.
      destruct (handleError_run status message w) as (_ & -> & _).
      reflexivity. }
    assert (Hfin : consistent (fst (exec _handleFinished w)) = true).
    { unfold consistent.
      destruct (handleFinished_run w) as (_ & -> & _). reflexivity. }
    unfold exec in Herr, Hfin.
    destruct (code =? 1000)%N; [|apply Herr].
    destruct (StatusMessageRegex_exec reason) as [[status message]|];
      [|apply Herr].
    destruct (String.eqb status "eof"); [|apply Herr].
    destruct (State_eqb (_state (this w)) Finishing);
      [apply Hfin|apply Herr].
  - rewrite (onWebSocketClose_ignored _ _ _ Hws). exact Hc.
Qed.

Lemma consistent_run es : forall w,
  consistent w = true -> consistent (fst (run es w)) = true.
Proof.
  induction es as [|e es IH]; intros w Hc; cbn [run]; [exact Hc|].
  pose proof (consistent_step e w Hc) as H1.
  destruct (step e w) as [w1 out1]. cbn [fst] in H1.
  specialize (IH w1 H1). destruct (run es w1). exact IH.
Qed.

Lemma consistent_no_TypeError e w :
  consistent w = true -> outcome (handle e) w <> Throw TypeError.
Proof.
  intros Hc.
  destruct e;
    lazymatch goal with
    | |- context [WebSocketClose _ _] => idtac
    | _ => break_world w; destruct st, ws, mr;
           try discriminate Hc; crunch; discriminate
    end.
  unfold outcome, handle.
  destruct (isWebSocketState (_state (this w))) eqn:Hws.
  - rewrite (onWebSocketClose_eq _ _ _ Hws).
    pose proof (fun status message =>
                  proj1 (handleError_run status message w)) as Herr.
    pose proof (proj1 (handleFinished_run w)) as Hfin.
    unfold outcome in Herr, Hfin.
    destruct (code =? 1000)%N; [|rewrite Herr; discriminate].
    destruct (StatusMessageRegex_exec reason) as [[status message]|];
      [|rewrite Herr; discriminate].
    destruct (String.eqb status "eof"); [|rewrite Herr; discriminate].
    destruct (State_eqb (_state (this w)) Finishing);
      [rewrite Hfin|rewrite Herr]; discriminate.
  - rewrite (onWebSocketClose_ignored _ _ _ Hws). discriminate.
Qed.

(** From a fresh session on, the branches of the model that stand for a
    dereference of [null] are never taken. *)
Lemma never_TypeError es e :
  outcome (handle e) (fst (run es fresh)) <> Throw TypeError.
Proof.
  apply consistent_no_TypeError, consistent_run. reflexivity.
Qed.

(** *** The channel closes with the end-of-stream token *)

Lemma close_eof_eq reason message w :
  isWebSocketState (_state (this w)) = true ->
  StatusMessageRegex_exec reason = Some ("eof", message) ->
  step (WebSocketClose 1000 reason) w =
  exec (if State_eqb (_state (this w)) Finishing
        then _handleFinished
        else _handleError "other_asr_error" "Unexpected EOF received.") w.
Proof.
  intros Hws Hexec. unfold step, exec, handle.
  rewrite (onWebSocketClose_eq _ _ _ Hws), Hexec. reflexivity.
Qed.

(** With the bare reason [eof] the pattern does not match, and a session in
    Finishing ends in Error, not Finished: the error callback is invoked
    with the reason as its message, the finished callback is not. *)
Lemma close_bare_eof_is_error :
  _state (this finishing) = Finishing
  /\ _state (this (fst (step (WebSocketClose 1000 "eof") finishing))) = Error
  /\ _state (this (fst (step (WebSocketClose 1000 "eof") finishing)))
     <> Finished
  /\ filter is_callback (snd (step (WebSocketClose 1000 "eof") finishing))
     = [CallOnError 4 "other_asr_error" "eof"].
Proof.
  vm_compute. repeat split. discriminate.
Qed.

(** C1, amended. If the channel closes with code 1000 and a reason that the
    status pattern matches with the token [eof] (such as [<eof>]) while the
    session is in Finishing, the session becomes Finished, the registered
    finished callback is the one callback invoked, and no later event
    changes the session or invokes any callback again. *)
Theorem close_eof_while_finishing (w : world) (reason message : string) :
  _state (this w) = Finishing ->
  StatusMessageRegex_exec reason = Some ("eof", message) ->
  let w' := fst (step (WebSocketClose 1000 reason) w) in
  let out := snd (step (WebSocketClose 1000 reason) w) in
  _state (this w') = Finished
  /\ recordTranscribeActive w' = false
  /\ filter is_callback out =
     match _onFinished (this w) with
     | Some f => [CallOnFinished f]
     | None => []
     end
  /\ forall later, fst (run later w') = w'
                   /\ filter is_callback (snd (run later w')) = [].
Proof.
  intros Hst Hexec w' out. subst w' out.
  rewrite (close_eof_eq reason message w);
    [|rewrite Hst; reflexivity|exact Hexec].
  rewrite Hst. cbn [State_eqb].
  destruct (handleFinished_run w) as (_ & H1 & H2 & _ & H3).
  repeat split; try assumption;
    apply terminal_run; rewrite H1; reflexivity.
Qed.

Lemma close_eof_while_finishing_witness :
  _state (this (fst (step (WebSocketClose 1000 "<eof>") finishing)))
  = Finished
  /\ filter is_callback (snd (step (WebSocketClose 1000 "<eof>") finishing))
     = [CallOnFinished 3].
Proof.
  destruct (close_eof_while_finishing finishing "<eof>" "" eq_refl eq_refl)
    as (H1 & _ & H3 & _).
  split; [exact H1|exact H3].
Defined.

(** C6. If the channel closes with code 1000 and a reason whose token is
    [eof] while the session is in OpeningWebSocket or Running, the session
    ends in Error and the one callback invoked is the error callback, with
    status [other_asr_error] and message [Unexpected EOF received.]. *)
Theorem close_eof_unexpected (w : world) (reason message : string) :
  _state (this w) = OpeningWebSocket \/ _state (this w) = Running ->
  StatusMessageRegex_exec reason = Some ("eof", message) ->
  let w' := fst (step (WebSocketClose 1000 reason) w) in
  let out := snd (step (WebSocketClose 1000 reason) w) in
  _state (this w') = Error
  /\ filter is_callback out =
     match _onError (this w) with
     | Some f => [CallOnError f "other_asr_error" "Unexpected EOF received."]
     | None => []
     end.
Proof.
  intros Hst Hexec w' out. subst w' out.
  rewrite (close_eof_eq reason message w);
    [|destruct Hst as [-> | ->]; reflexivity|exact Hexec].
  assert (Hnf : State_eqb (_state (this w)) Finishing = false)
    by (destruct Hst as [-> | ->]; reflexivity).
  rewrite Hnf.
  destruct (handleError_run "other_asr_error" "Unexpected EOF received." w)
    as (_ & H1 & _ & _ & H3).
  split; assumption.
Qed.

Lemma close_eof_unexpected_witness :
  _state (this (fst (step (WebSocketClose 1000 "<eof>") running))) = Error
  /\ filter is_callback (snd (step (WebSocketClose 1000 "<eof>") running))
     = [CallOnError 4 "other_asr_error" "Unexpected EOF received."].
Proof.
  exact (close_eof_unexpected running "<eof>" "" (or_intror eq_refl) eq_refl).
Defined.

(** *** [stop()] *)

(** A session that was never started is inactive; [stop()] on it returns
    normally, changes nothing and has no effect at all: no error callback,
    no exception, no error event. *)
Lemma stop_while_inactive_raises_nothing :
  isInactiveState (_state (this registered)) = true
  /\ _onError (this registered) = Some 4
  /\ handle Call_stop registered = (Normal tt, registered, [])
  /\ ~ (exists f status message,
          In (CallOnError f status message) (snd (step Call_stop registered))).
Proof.
  vm_compute. repeat split. intros (f & status & message & []).
Qed.

(** C3, amended. In every state other than RequestingMedia, OpeningWebSocket
    and Running, the inactive ones (Init, Finished, Error, Canceled)
    included, [stop()] is a no-op: it returns normally, leaves the session
    as it is and has no effect, so no error is raised. *)
Theorem stop_elsewhere_is_noop (w : world) :
  _state (this w) <> RequestingMedia ->
  _state (this w) <> OpeningWebSocket ->
  _state (this w) <> Running ->
  handle Call_stop w = (Normal tt, w, []).
Proof.
  break_world w. intros H1 H2 H3.
  destruct st; try congruence; reflexivity.
Qed.

Lemma stop_elsewhere_is_noop_witness :
  handle Call_stop finishing = (Normal tt, finishing, []).
Proof.
  apply stop_elsewhere_is_noop; vm_compute; discriminate.
Defined.

(** [stop()] before the channel is open. *)
Lemma stop_early_run w :
  _state (this w) = RequestingMedia \/ _state (this w) = OpeningWebSocket ->
  outcome stop w = Normal tt
  /\ _state (this (fst (exec stop w))) = FinishingEarly
  /\ _onFinished (this (fst (exec stop w))) = _onFinished (this w)
  /\ filter is_callback (snd (exec stop w)) = []
  /\ filter is_deferral (snd (exec stop w)) = [ThenCompleteFinishingEarly].
Proof.
  break_world w. intros [-> | ->]; crunch; auto.
Qed.

(** In FinishingEarly only the deferred completion leads to Finished. *)
Lemma finishingEarly_step e w :
  _state (this w) = FinishingEarly ->
  e <> CompleteFinishingEarly ->
  _state (this (fst (step e w))) <> Finished
  /\ filter is_terminal_callback (snd (step e w)) = [].
Proof.
  break_world w. intros -> He.
  destruct e; try congruence; crunch; split; auto; discriminate.
Qed.

Lemma completeFinishingEarly_run w :
  _state (this w) = FinishingEarly ->
  step CompleteFinishingEarly w = exec _handleFinished w.
Proof.
  intros Hst.
  unfold step, exec, handle, _completeFinishingEarly, bind at 1, getThis.
  rewrite Hst. cbn [State_eqb negb].
  destruct (_handleFinished w) as [[c w2] out2]. reflexivity.
Qed.

Lemma completeFinishingEarly_stale w :
  _state (this w) <> FinishingEarly ->
  handle CompleteFinishingEarly w = (Normal tt, w, []).
Proof.
  break_world w. intros H. destruct st; try congruence; reflexivity.
Qed.

(** C8. [stop()] in RequestingMedia or OpeningWebSocket returns normally
    with the session in FinishingEarly, having invoked no callback and
    scheduled the deferred completion once.  From there no event other than
    the deferred completion finishes the session or invokes a terminal
    callback; the deferred completion does finish it and invokes the
    finished callback; and in any state other than FinishingEarly the
    deferred completion does nothing. *)
Theorem stop_early_defers (w : world) :
  _state (this w) = RequestingMedia \/ _state (this w) = OpeningWebSocket ->
  let w' := fst (step Call_stop w) in
  let out := snd (step Call_stop w) in
  outcome (handle Call_stop) w = Normal tt
  /\ _state (this w') = FinishingEarly
  /\ filter is_callback out = []
  /\ filter is_deferral out = [ThenCompleteFinishingEarly]
  /\ (forall e, e <> CompleteFinishingEarly ->
        _state (this (fst (step e w'))) <> Finished
        /\ filter is_terminal_callback (snd (step e w')) = [])
  /\ (_state (this (fst (step CompleteFinishingEarly w'))) = Finished
      /\ filter is_callback (snd (step CompleteFinishingEarly w')) =
         match _onFinished (this w) with
         | Some f => [CallOnFinished f]
         | None => []
         end)
  /\ (forall v, _state (this v) <> FinishingEarly ->
        handle CompleteFinishingEarly v = (Normal tt, v, [])).
Proof.
  intros Hst w' out.
  destruct (stop_early_run w Hst) as (H0 & H1 & HonF & H2 & H3).
  change (fst (exec stop w)) with w' in H1, HonF.
  change (snd (exec stop w)) with out in H2, H3.
  repeat split; try assumption.
  - apply finishingEarly_step; assumption.
  - apply finishingEarly_step; assumption.
  - rewrite (completeFinishingEarly_run w' H1).
    apply (handleFinished_run w').
  - rewrite (completeFinishingEarly_run w' H1), <- HonF.
    apply (handleFinished_run w').
  - apply completeFinishingEarly_stale.
Qed.

Lemma stop_early_defers_witness :
  _state (this (fst (step Call_stop requesting))) = FinishingEarly
  /\ filter is_callback (snd (step Call_stop requesting)) = []
  /\ filter is_callback
       (snd (step CompleteFinishingEarly (fst (step Call_stop requesting))))
     = [CallOnFinished 3].
Proof.
  destruct (stop_early_defers requesting (or_introl eq_refl))
    as (_ & H2 & H3 & _ & _ & [_ H6] & _).
  split; [exact H2|split; [exact H3|exact H6]].
Defined.

(** *** [cancel()] *)

(** A fresh session is in Init, which is not terminal; [cancel()] leaves it
    in Init. *)
Lemma cancel_before_start_stays_init :
  isTerminalState (_state (this fresh)) = false
  /\ _state (this (fst (step Call_cancel fresh))) = Init
  /\ _state (this (fst (step Call_cancel fresh))) <> Canceled
  /\ getState (this (fst (step Call_cancel fresh))) = "Init".
Proof.
  vm_compute. repeat split. discriminate.
Qed.

Lemma cancel_inactive w :
  isInactiveState (_state (this w)) = true ->
  handle Call_cancel w = (Normal tt, w, []).
Proof.
  break_world w. intros H. destruct st; try discriminate H; reflexivity.
Qed.

(** [cancel()] on an active session. *)
Lemma cancel_active w :
  isInactiveState (_state (this w)) = false ->
  let w1 := fst (step Call_cancel w) in
  let out1 := snd (step Call_cancel w) in
  outcome (handle Call_cancel) w = Normal tt
  /\ _state (this w1) = Canceled
  /\ recordTranscribeActive w1 = false
  /\ _result (this w1) = _result (this w)
  /\ _webSocket (this w1) = None
  /\ _mediaRecorder (this w1) = None
  /\ _mediaStream (this w1) = None
  /\ filter is_callback out1 = []
  /\ (_webSocket (this w) <> None -> In WsClose out1)
  /\ (_mediaRecorder (this w) <> None -> In RecorderTerminateWorker out1)
  /\ (forall mediaStream, _mediaStream (this w) = Some mediaStream ->
        In (TracksStop mediaStream) out1).
Proof.
  break_world w. intros Hact.
  destruct st; try discriminate Hact;
    destruct ws, mr as [[? []]|], ms; vm_compute;
    repeat split; auto 10; try congruence;
    intros; try discriminate;
    try match goal with H : Some _ = Some _ |- _ => injection H as <- end;
    auto 10.
Qed.

(** C7, amended. From any active state (RequestingMedia, OpeningWebSocket,
    Running, Finishing, FinishingEarly) [cancel()] closes the channel, the
    recorder and the stream that are held, clears the active flag and moves
    to Canceled; in Init it does nothing.  In every state it invokes no
    callback, and a second [cancel()] right after it is a no-op: it returns
    normally, changes nothing and has no effect. *)
Theorem cancel_idempotent (w : world) :
  let w1 := fst (step Call_cancel w) in
  let out1 := snd (step Call_cancel w) in
  (isInactiveState (_state (this w)) = false ->
     _state (this w1) = Canceled
     /\ recordTranscribeActive w1 = false
     /\ _webSocket (this w1) = None
     /\ _mediaRecorder (this w1) = None
     /\ _mediaStream (this w1) = None
     /\ (_webSocket (this w) <> None -> In WsClose out1)
     /\ (_mediaRecorder (this w) <> None -> In RecorderTerminateWorker out1)
     /\ (forall mediaStream, _mediaStream (this w) = Some mediaStream ->
           In (TracksStop mediaStream) out1))
  /\ (_state (this w) = Init -> w1 = w /\ out1 = [])
  /\ filter is_callback out1 = []
  /\ handle Call_cancel w1 = (Normal tt, w1, []).
Proof.
  intros w1 out1.
  destruct (isInactiveState (_state (this w))) eqn:Hact.
  - pose proof (cancel_inactive w Hact) as Hnoop.
    assert (Hw1 : w1 = w)
      by (subst w1; unfold step, exec; rewrite Hnoop; reflexivity).
    assert (Hout1 : out1 = [])
      by (subst out1; unfold step, exec; rewrite Hnoop; reflexivity).
    rewrite Hw1, Hout1.
    split; [discriminate|]. split; [auto|]. split; [reflexivity|exact Hnoop].
  - destruct (cancel_active w Hact)
      as (_ & H1 & H2 & _ & H3 & H4 & H5 & H6 & H7 & H8 & H9).
    fold w1 in H1, H2, H3, H4, H5. fold out1 in H6, H7, H8, H9.
    split; [intros _; repeat split; assumption|].
    split; [intros Hinit; rewrite Hinit in Hact; discriminate Hact|].
    split; [exact H6|].
    apply cancel_inactive. rewrite H1. reflexivity.
Qed.

Lemma cancel_idempotent_witness :
  _state (this (fst (step Call_cancel running))) = Canceled
  /\ In WsClose (snd (step Call_cancel running))
  /\ handle Call_cancel (fst (step Call_cancel running))
     = (Normal tt, fst (step Call_cancel running), []).
Proof.
  destruct (cancel_idempotent running) as (Hact & _ & _ & Hagain).
  destruct (Hact eq_refl) as (H1 & _ & _ & _ & _ & H6 & _).
  split; [exact H1|split; [apply H6; discriminate|exact Hagain]].
Defined.

(** On a session with its callbacks registered but not started, which is
    not in a terminal state, [cancel()] is silent but [getState()] does not
    answer [Canceled] afterwards: it still answers [Init]. *)
Lemma cancel_unstarted_still_reads_init :
  isTerminalState (_state (this registered)) = false
  /\ filter is_callback (snd (step Call_cancel registered)) = []
  /\ getState (this (fst (step Call_cancel registered))) = "Init"
  /\ getState (this (fst (step Call_cancel registered))) <> "Canceled".
Proof.
  vm_compute. repeat split. discriminate.
Qed.

(** C10, amended. [cancel()] never invokes a callback and never throws, in
    whatever state it is called.  From an active state (RequestingMedia,
    OpeningWebSocket, Running, Finishing, FinishingEarly) the caller sees
    the cancellation through [getState()], which then answers [Canceled];
    on an inactive session (Init, or already terminal) [cancel()] changes
    nothing at all, so [getState()] answers as before.  The accumulated
    result is untouched in both cases. *)
Theorem cancel_is_silent (w : world) :
  let w' := fst (step Call_cancel w) in
  let out := snd (step Call_cancel w) in
  outcome (handle Call_cancel) w = Normal tt
  /\ filter is_callback out = []
  /\ _result (this w') = _result (this w)
  /\ (isInactiveState (_state (this w)) = false ->
        getState (this w') = "Canceled")
  /\ (isInactiveState (_state (this w)) = true -> w' = w /\ out = []).
Proof.
  intros w' out.
  destruct (isInactiveState (_state (this w))) eqn:Hact.
  - pose proof (cancel_inactive w Hact) as Hnoop.
    subst w' out. unfold outcome, step, exec. rewrite Hnoop. cbn [fst snd].
    repeat split; try reflexivity. discriminate.
  - destruct (cancel_active w Hact)
      as (H0 & H1 & _ & H2 & _ & _ & _ & H6 & _).
    fold w' in H1, H2. fold out in H6.
    repeat split; try assumption; try discriminate.
    intros _. unfold getState. rewrite H1. reflexivity.
Qed.

Lemma cancel_is_silent_witness :
  filter is_callback (snd (step Call_cancel finishing)) = []
  /\ getState (this (fst (step Call_cancel finishing))) = "Canceled".
Proof.
  destruct (cancel_is_silent finishing) as (_ & Hcb & _ & Hst & _).
  split; [exact Hcb|]. apply Hst. reflexivity.
Defined.

(** *** Whole sessions *)

(** A session that hears one word and is stopped: started, three chunks
    sent, one result frame merged, [stop()], the server's graceful close. *)
Example session_one_word :
  let hi := {| Wire.fw := [{| Wire.t := "hi"; Wire.s := 0; Wire.d := 200 |}];
               Wire.nfw := []; Wire.fpt := 10; Wire.tpt := 10 |} in
  let es := [Call_start; GetUserMediaSuccess 7; WebSocketOpen (44100 # 1)%Q;
             MediaRecorderData [x00; x01]; MediaRecorderData [x02; x03];
             MediaRecorderData [x04; x05]; WebSocketMessage (Some hi);
             Call_stop; WebSocketClose 1000 "<eof>"] in
  words (getResult (this (fst (run es registered)))) =
    [{| text := "hi"; start_ms := 0; duration_ms := 200; is_final := true |}]
  /\ getState (this (fst (run es registered))) = "Finished"
  /\ filter is_callback (snd (run es registered)) =
     [CallOnStarted 1;
      CallOnPartialResult 2 (resultFromResponse hi);
      CallOnFinished 3]
  /\ filter (fun e => match e with WsSend _ => true | _ => false end)
            (snd (run es registered)) =
     [WsSend (ConfigFrame "demo" 44100 false "{}");
      WsSend (AudioFrame [x00; x01]); WsSend (AudioFrame [x02; x03]);
      WsSend (AudioFrame [x04; x05]); WsSend EmptyFrame].
Proof. vm_compute. repeat split. Qed.

(** [stop()] while the microphone is still being requested: the finished
    callback comes with the deferred completion, and the late grant only
    has its tracks stopped. *)
Example session_stopped_early :
  run [Call_start; Call_stop] registered =
    (fst (run [Call_start; Call_stop] registered),
     [GetUserMedia; ThenCompleteFinishingEarly])
  /\ getState (this (fst (run [Call_start; Call_stop] registered)))
     = "Finishing"
  /\ snd (run [GetUserMediaSuccess 7; CompleteFinishingEarly]
              (fst (run [Call_start; Call_stop] registered)))
     = [TracksStop 7; CallOnFinished 3].
Proof. vm_compute. repeat split. Qed.

(** An abnormal close while running. *)
Example session_abnormal_close :
  filter is_callback
    (snd (step (WebSocketClose 1006 "gone") running)) =
  [CallOnError 4 "websocket_closed" "WebSocket closed: code=1006, reason=gone"].
Proof. vm_compute. reflexivity. Qed.

(** ** Further properties of the session *)

(** Every outcome of [_onWebSocketClose]. *)
Lemma close_cases (P : world * list effect -> Prop) code reason w :
  (isWebSocketState (_state (this w)) = false -> P (w, [])) ->
  (isWebSocketState (_state (this w)) = true ->
   forall status message, P (exec (_handleError status message) w)) ->
  (_state (this w) = Finishing -> P (exec _handleFinished w)) ->
  P (step (WebSocketClose code reason) w).
Proof.
  intros Hignored Herr Hfin. unfold step, exec, handle.
  destruct (isWebSocketState (_state (this w))) eqn:Hws.
  - rewrite (onWebSocketClose_eq _ _ _ Hws).
    specialize (Herr eq_refl). unfold exec in Herr, Hfin.
    destruct (code =? 1000)%N; [|apply Herr].
    destruct (StatusMessageRegex_exec reason) as [[status message]|];
      [|apply Herr].
    destruct (String.eqb status "eof"); [|apply Herr].
    destruct (State_eqb (_state (this w)) Finishing) eqn:Hst;
      [|apply Herr].
    apply Hfin. destruct (_state (this w)); try discriminate Hst; reflexivity.
  - rewrite (onWebSocketClose_ignored _ _ _ Hws). apply Hignored. reflexivity.
Qed.

Lemma run_snoc es e w :
  run (es ++ [e]) w =
  (fst (step e (fst (run es w))),
   snd (run es w) ++ snd (step e (fst (run es w)))).
Proof.
  rewrite run_app. cbn [run].
  destruct (step e (fst (run es w))) as [w2 out2]. cbn [fst snd].
  rewrite app_nil_r. reflexivity.
Qed.

(** Induction over a run, with the log so far. *)
Lemma run_invariant (P : world -> list effect -> Prop) w :
  P w [] ->
  (forall v log e,
     P v log -> P (fst (step e v)) (log ++ snd (step e v))) ->
  forall es, P (fst (run es w)) (snd (run es w)).
Proof.
  intros Hbase Hstep es.
  induction es as [|e es IH] using rev_ind; [exact Hbase|].
  rewrite run_snoc. cbn [fst snd]. apply Hstep, IH.
Qed.

(** Take a world apart along what [sound] says of it. *)
Ltac sound_world w H :=
  break_world w;
  match goal with x : State |- _ => destruct x end;
  cbn in H;
  repeat match goal with
         | x : bool |- _ => destruct x; try discriminate H
         | x : option WebSocket |- _ => destruct x; try discriminate H
         | x : option MediaStream |- _ => destruct x; try discriminate H
         | x : option MediaRecorder |- _ =>
             destruct x as [[? []]|]; try discriminate H
         end.

Lemma close_cases_full
      (P : completion unit * world * list effect -> Prop) code reason w :
  (isWebSocketState (_state (this w)) = false -> P (Normal tt, w, [])) ->
  (isWebSocketState (_state (this w)) = true ->
   forall status message, P (_handleError status message w)) ->
  (_state (this w) = Finishing -> P (_handleFinished w)) ->
  P (handle (WebSocketClose code reason) w).
Proof.
  intros Hignored Herr Hfin. unfold handle.
  destruct (isWebSocketState (_state (this w))) eqn:Hws.
  - rewrite (onWebSocketClose_eq _ _ _ Hws). specialize (Herr eq_refl).
    destruct (code =? 1000)%N; [|apply Herr].
    destruct (StatusMessageRegex_exec reason) as [[status message]|];
      [|apply Herr].
    destruct (String.eqb status "eof"); [|apply Herr].
    destruct (State_eqb (_state (this w)) Finishing) eqn:Hst;
      [|apply Herr].
    apply Hfin. destruct (_state (this w)); try discriminate Hst; reflexivity.
  - rewrite (onWebSocketClose_ignored _ _ _ Hws). apply Hignored. reflexivity.
Qed.

(** Drop a case whose premise is false on the world at hand. *)
Ltac prune_case :=
  let Hc := fresh "Hc" in
  intros Hc; vm_compute in Hc; try discriminate Hc; clear Hc.

(** Replace a close event by the three things it can amount to. *)
Ltac split_close :=
  lazymatch goal with
  | |- context [WebSocketClose ?c ?r] =>
      unfold step, exec, outcome;
      match goal with
      | |- context [handle (WebSocketClose c r) ?w] =>
          pattern (handle (WebSocketClose c r) w);
          apply close_cases_full;
          [ prune_case | prune_case; intros ? ? | prune_case ]
      end
  | _ => idtac
  end.

(** All the sound worlds, all the events. *)
Ltac by_sound_cases w H e :=
  sound_world w H; destruct e; split_close; crunch.

Lemma sound_step e w : sound w = true -> sound (fst (step e w)) = true.
Proof. intros H. by_sound_cases w H e; reflexivity. Qed.

Lemma sound_run es : forall w,
  sound w = true -> sound (fst (run es w)) = true.
Proof.
  induction es as [|e es IH]; intros w Hs; cbn [run]; [exact Hs|].
  pose proof (sound_step e w Hs) as H1.
  destruct (step e w) as [w1 out1]. cbn [fst] in H1.
  specialize (IH w1 H1). destruct (run es w1). exact IH.
Qed.

Lemma sound_step_callbacks e w :
  sound w = true ->
  match stage (_state (this w)), stage (_state (this (fst (step e w)))),
        filter is_callback (snd (step e w)) with
  | 0, 0, cs => cs = []
  | 0, 1, cs => cs = [] \/ exists f, cs = [CallOnStarted f]
  | 1, 1, cs => cs = [] \/ exists f r, cs = [CallOnPartialResult f r]
  | (0 | 1), 2, cs =>
      cs = [] \/ (exists f, cs = [CallOnFinished f])
      \/ (exists f status message, cs = [CallOnError f status message])
  | 2, 2, cs => cs = []
  | _, _, _ => False
  end.
Proof.
  intros H. by_sound_cases w H e;
    first [ reflexivity
          | left; reflexivity
          | right; eexists; reflexivity
          | right; do 2 eexists; reflexivity
          | right; left; eexists; reflexivity
          | right; right; do 3 eexists; reflexivity ].
Qed.

Lemma sound_step_frames e w :
  sound w = true ->
  (is_front (_state (this (fst (step e w)))) = true ->
   is_front (_state (this w)) = true /\ frames (snd (step e w)) = [])
  /\ (_state (this (fst (step e w))) = Running ->
      (_state (this w) = OpeningWebSocket
       /\ exists config, frames (snd (step e w)) = [config]
                          /\ is_config config = true)
      \/ (_state (this w) = Running
          /\ (frames (snd (step e w)) = []
              \/ exists data, frames (snd (step e w)) = [AudioFrame data])))
  /\ (is_front (_state (this (fst (step e w)))) = false ->
      _state (this (fst (step e w))) <> Running ->
      frames (snd (step e w)) = []
      \/ (_state (this w) = Running
          /\ frames (snd (step e w)) = [EmptyFrame])).
Proof.
  intros H. by_sound_cases w H e;
    (split;
     [ intros Hf; first [discriminate Hf | split; reflexivity]
     | split;
       [ intros Hr; first
           [ discriminate Hr
           | left; split; [reflexivity|eexists; split; reflexivity]
           | right; split; [reflexivity|left; reflexivity]
           | right; split; [reflexivity|right; eexists; reflexivity] ]
       | intros Hf Hr; first
           [ discriminate Hf
           | exfalso; apply Hr; reflexivity
           | left; reflexivity
           | right; split; reflexivity ] ] ]).
Qed.

Lemma sound_step_start e w :
  sound w = true ->
  match State_eqb (_state (this w)) Init,
        State_eqb (_state (this (fst (step e w)))) Init with
  | true, true => requests (snd (step e w)) = 0
  | true, false => requests (snd (step e w)) = 1
  | false, true => False
  | false, false =>
      requests (snd (step e w)) = 0
      /\ settings (this (fst (step e w))) = settings (this w)
  end
  /\ Forall (configures (this w)) (frames (snd (step e w))).
Proof.
  intros H. by_sound_cases w H e;
    repeat split; repeat constructor.
Qed.


Lemma sound_step_held e w :
  sound w = true ->
  forall mediaStream,
    _mediaStream (this w) = Some mediaStream ->
    _mediaStream (this (fst (step e w))) = Some mediaStream
    \/ In (TracksStop mediaStream) (snd (step e w)).
Proof.
  intros H. by_sound_cases w H e;
    intros ? Hm; try discriminate Hm;
    injection Hm as <-; auto 10.
Qed.

Lemma sound_step_granted mediaStream w :
  sound w = true ->
  _mediaStream (this (fst (step (GetUserMediaSuccess mediaStream) w)))
  = Some mediaStream
  \/ In (TracksStop mediaStream)
        (snd (step (GetUserMediaSuccess mediaStream) w)).
Proof.
  intros H. sound_world w H; crunch; auto 10.
Qed.

(** *** What every run of a session keeps *)

Lemma sound_fresh : sound fresh = true.
Proof. reflexivity. Qed.

Lemma sound_inactive w :
  sound w = true ->
  isInactiveState (_state (this w)) = true ->
  recordTranscribeActive w = false
  /\ _webSocket (this w) = None
  /\ _mediaRecorder (this w) = None
  /\ _mediaStream (this w) = None.
Proof.
  intros H Hin. sound_world w H; try discriminate Hin; repeat split.
Qed.





Lemma requests_app out1 out2 :
  requests (out1 ++ out2) = requests out1 + requests out2.
Proof.
  induction out1 as [|e out1 IH]; [reflexivity|].
  destruct e; cbn; rewrite ?IH; reflexivity.
Qed.

Lemma frames_app out1 out2 :
  frames (out1 ++ out2) = frames out1 ++ frames out2.
Proof.
  induction out1 as [|e out1 IH]; [reflexivity|].
  destruct e; cbn; rewrite ?IH; reflexivity.
Qed.

(** X13. The microphone is asked for exactly once per session, by the
    [start()] that takes it out of Init: in any run the number of requests
    is 0 while the session is still in Init and 1 ever after, and the
    session never comes back to Init. *)
Theorem microphone_requested_once (before after : list event) :
  let w1 := fst (run before fresh) in
  requests (snd (run before fresh)) =
    (if State_eqb (_state (this w1)) Init then 0 else 1)
  /\ (State_eqb (_state (this w1)) Init = false ->
      State_eqb (_state (this (fst (run after w1)))) Init = false
      /\ requests (snd (run after w1)) = 0).
Proof.
  assert (Hinv : forall es w n,
    sound w = true ->
    n = (if State_eqb (_state (this w)) Init then 0 else 1) ->
    n + requests (snd (run es w)) =
      (if State_eqb (_state (this (fst (run es w)))) Init then 0 else 1)
    /\ (State_eqb (_state (this w)) Init = false ->
        State_eqb (_state (this (fst (run es w)))) Init = false)).
  { induction es as [|e es IH]; intros w n Hs Hn; cbn [run].
    - cbn. split; [lia|auto].
    - pose proof (sound_step e w Hs) as Hs1.
      pose proof (sound_step_start e w Hs) as [Hstart _].
      destruct (step e w) as [w1 out1]. cbn [fst snd] in *.
      specialize (IH w1 (n + requests out1) Hs1).
      destruct (run es w1) as [w2 out2]. cbn [fst snd] in *.
      rewrite requests_app.
      destruct (State_eqb (_state (this w)) Init),
               (State_eqb (_state (this w1)) Init);
        cbv beta iota in Hstart.
      + destruct IH as [IH1 IH2]; [lia|]. split; [lia|discriminate].
      + destruct IH as [IH1 IH2]; [lia|]. split; [lia|discriminate].
      + contradiction.
      + destruct Hstart as [Hr _].
        destruct IH as [IH1 IH2]; [lia|]. split; [lia|].
        intros _. apply IH2. reflexivity. }
  intros w1.
  assert (Hs1 : sound w1 = true) by apply sound_run, sound_fresh.
  destruct (Hinv before fresh 0 sound_fresh eq_refl) as [H1 _].
  split; [exact H1|].
  intros Hni.
  destruct (Hinv after w1 1 Hs1) as [H2 H3]; [rewrite Hni; reflexivity|].
  specialize (H3 Hni). split; [exact H3|].
  rewrite H3 in H2. lia.
Qed.

Lemma microphone_requested_once_witness :
  requests (snd (run [Call_start; Call_cancel; Call_start; Call_stop]
                     fresh)) = 1.
Proof.
  destruct (microphone_requested_once
              [Call_start; Call_cancel; Call_start; Call_stop] [])
    as [H _].
  exact H.
Defined.

(** *** The order of frames and of callbacks *)

Lemma frames_shape_nil : frames_shape [].
Proof. left. reflexivity. Qed.

(** X14. Over the whole life of a session the channel is sent nothing, or
    exactly one configuration frame, then audio frames, then at most one
    empty end-of-audio frame: no audio before the configuration, nothing
    after the end-of-audio marker, and neither of the two more than once. *)
Theorem frames_are_sent_in_order (es : list event) :
  frames_shape (frames (snd (run es fresh))).
Proof.
  enough (H : sound (fst (run es fresh)) = true
              /\ (is_front (_state (this (fst (run es fresh)))) = true ->
                  frames (snd (run es fresh)) = [])
              /\ (_state (this (fst (run es fresh))) = Running ->
                  exists config data,
                    frames (snd (run es fresh))
                    = config :: map AudioFrame data
                    /\ is_config config = true)
              /\ frames_shape (frames (snd (run es fresh))))
    by apply H.
  apply (run_invariant
           (fun v log =>
              sound v = true
              /\ (is_front (_state (this v)) = true -> frames log = [])
              /\ (_state (this v) = Running ->
                  exists config data,
                    frames log = config :: map AudioFrame data
                    /\ is_config config = true)
              /\ frames_shape (frames log))).
  - split; [reflexivity|]. split; [reflexivity|].
    split; [discriminate|apply frames_shape_nil].
  - intros v log e (Hs & Hfront & Hrun & Hshape).
    pose proof (sound_step e v Hs) as Hs'.
    destruct (sound_step_frames e v Hs) as (Fa & Fb & Fc).
    rewrite frames_app.
    split; [exact Hs'|]. split; [|split].
    + intros Hf. destruct (Fa Hf) as [Hf0 ->].
      rewrite app_nil_r. apply Hfront, Hf0.
    + intros Hr.
      destruct (Fb Hr) as [[Ho (config & -> & Hc)] | [Hr0 Hfs]].
      * rewrite Hfront by (rewrite Ho; reflexivity).
        exists config, []. split; [reflexivity|exact Hc].
      * destruct (Hrun Hr0) as (config & data & -> & Hc).
        destruct Hfs as [-> | [d ->]].
        -- exists config, data. rewrite app_nil_r. auto.
        -- exists config, (data ++ [d]). rewrite map_app. auto.
    + destruct (is_front (_state (this (fst (step e v))))) eqn:Hf.
      { destruct (Fa eq_refl) as [Hf0 ->]. rewrite app_nil_r. exact Hshape. }
      destruct (State_eqb (_state (this (fst (step e v)))) Running) eqn:Hr.
      { assert (Hr' : _state (this (fst (step e v))) = Running)
          by (destruct (_state (this (fst (step e v))));
              try discriminate Hr; reflexivity).
        destruct (Fb Hr') as [[Ho (config & -> & Hc)] | [Hr0 Hfs]].
        - rewrite Hfront by (rewrite Ho; reflexivity).
          right. exists config, [], []. auto.
        - destruct (Hrun Hr0) as (config & data & -> & Hc).
          right. destruct Hfs as [-> | [d ->]].
          + exists config, data, []. rewrite !app_nil_r. auto.
          + exists config, (data ++ [d]), [].
            rewrite map_app, app_nil_r. auto. }
      assert (Hnr : _state (this (fst (step e v))) <> Running)
        by (intros E; rewrite E in Hr; discriminate Hr).
      destruct (Fc eq_refl Hnr) as [-> | [Hr0 ->]].
      * rewrite app_nil_r. exact Hshape.
      * destruct (Hrun Hr0) as (config & data & -> & Hc).
        right. exists config, data, [EmptyFrame]. auto.
Qed.

Lemma callbacks_shape_nil : callbacks_shape [].
Proof.
  exists [], [], []. repeat split; auto.
Qed.

(** X15. The callbacks of a session come in a fixed order: the started
    callback at most once and before every other, then partial results,
    then at most one terminal callback (finished or error), after which no
    callback is invoked. *)
Theorem callbacks_come_in_order (es : list event) :
  callbacks_shape (filter is_callback (snd (run es fresh))).
Proof.
  enough (H : sound (fst (run es fresh)) = true
              /\ match stage (_state (this (fst (run es fresh)))) with
                 | 0 => filter is_callback (snd (run es fresh)) = []
                 | 1 => exists started partials,
                          filter is_callback (snd (run es fresh))
                          = started ++ partials
                          /\ (started = []
                              \/ exists f, started = [CallOnStarted f])
                          /\ forallb is_partial partials = true
                 | _ => callbacks_shape
                          (filter is_callback (snd (run es fresh)))
                 end).
  { destruct H as [_ H].
    destruct (stage (_state (this (fst (run es fresh))))) as [|[|n]].
    - rewrite H. apply callbacks_shape_nil.
    - destruct H as (started & partials & -> & Hs & Hp).
      exists started, partials, []. rewrite app_nil_r. auto.
    - exact H. }
  apply (run_invariant
           (fun v log =>
              sound v = true
              /\ match stage (_state (this v)) with
                 | 0 => filter is_callback log = []
                 | 1 => exists started partials,
                          filter is_callback log = started ++ partials
                          /\ (started = []
                              \/ exists f, started = [CallOnStarted f])
                          /\ forallb is_partial partials = true
                 | _ => callbacks_shape (filter is_callback log)
                 end)).
  - split; reflexivity.
  - intros v log e (Hs & Hlog).
    pose proof (sound_step e v Hs) as Hs'.
    pose proof (sound_step_callbacks e v Hs) as Hcb.
    split; [exact Hs'|]. rewrite filter_app.
    destruct (stage (_state (this v))) as [|[|[|n]]],
             (stage (_state (this (fst (step e v))))) as [|[|[|n']]];
      try contradiction.
    + rewrite Hlog, Hcb. reflexivity.
    + rewrite Hlog. cbn [app].
      exists (filter is_callback (snd (step e v))), [].
      rewrite app_nil_r. repeat split. exact Hcb.
    + rewrite Hlog. cbn [app].
      exists [], [], (filter is_callback (snd (step e v))).
      repeat split; auto.
    + destruct Hlog as (started & partials & -> & Hst & Hp).
      exists started, (partials ++ filter is_callback (snd (step e v))).
      rewrite app_assoc. split; [reflexivity|]. split; [exact Hst|].
      rewrite forallb_app, Hp.
      destruct Hcb as [-> | (f & r & ->)]; reflexivity.
    + destruct Hlog as (started & partials & -> & Hst & Hp).
      exists started, partials, (filter is_callback (snd (step e v))).
      rewrite app_assoc. repeat split; auto.
    + rewrite Hcb, app_nil_r. exact Hlog.
Qed.

(** *** Settings, streams and the active flag *)

Lemma configures_settings o o' frame :
  settings o' = settings o -> configures o frame -> configures o' frame.
Proof.
  unfold settings. intros E. injection E as E1 E2 E3 _ _ _ _ _.
  destruct frame; cbn; [|auto|auto]. rewrite E1, E2, E3. auto.
Qed.

(** X16. Once [start()] has been called nothing changes the settings any
    more, neither a setter, which throws, nor anything else: the API key,
    the non-final flag, the speech context, the URI and the four callbacks
    stay what they were, and the configuration frame, if one is sent,
    carries that API key, flag and speech context. *)
Theorem settings_are_frozen_by_start (before after : list event) :
  let w1 := fst (run before fresh) in
  State_eqb (_state (this w1)) Init = false ->
  settings (this (fst (run after w1))) = settings (this w1)
  /\ Forall (configures (this w1)) (frames (snd (run after w1))).
Proof.
  intros w1 Hni.
  assert (Hs1 : sound w1 = true) by apply sound_run, sound_fresh.
  clearbody w1. revert w1 Hni Hs1.
  induction after as [|e es IH]; intros w Hni Hs; cbn [run].
  - split; [reflexivity|constructor].
  - pose proof (sound_step e w Hs) as Hs'.
    pose proof (sound_step_start e w Hs) as [Hstart Hcfg].
    rewrite Hni in Hstart.
    destruct (step e w) as [w' out]. cbn [fst snd] in *.
    destruct (State_eqb (_state (this w')) Init) eqn:Hni';
      [contradiction|]. destruct Hstart as [_ Hset].
    destruct (IH w' Hni' Hs') as [IH1 IH2].
    destruct (run es w') as [w2 out2]. cbn [fst snd] in *.
    split; [congruence|]. rewrite frames_app. apply Forall_app.
    split; [exact Hcfg|].
    eapply Forall_impl; [|exact IH2].
    intros frame. apply configures_settings. symmetry. exact Hset.
Qed.

Lemma settings_are_frozen_by_start_witness :
  let before := [Call_setApiKey "k1"; Call_start] in
  let after := [Call_setApiKey "k2"; GetUserMediaSuccess 7;
                WebSocketOpen (8000 # 1)%Q] in
  _apiKey (this (fst (run (before ++ after) fresh))) = "k1"
  /\ frames (snd (run after (fst (run before fresh))))
     = [ConfigFrame "k1" 8000 false "{}"].
Proof.
  intros before after.
  destruct (settings_are_frozen_by_start before after eq_refl) as [H _].
  split; [|reflexivity].
  rewrite run_app. cbn [fst].
  apply (f_equal (fun s => snd (fst (fst (fst s))))) in H. exact H.
Defined.

Lemma granted_app es1 es2 : granted (es1 ++ es2) = granted es1 ++ granted es2.
Proof.
  induction es1 as [|e es1 IH]; [reflexivity|].
  destruct e; cbn; rewrite ?IH; reflexivity.
Qed.

(** X17. No granted stream is leaked: at every moment each stream the
    browser has granted to the session, whether the grant was awaited or
    came late, either is the one the session holds or has had its tracks
    stopped; once the session is inactive, all of them have been stopped. *)
Theorem granted_streams_are_stopped (es : list event)
        (mediaStream : MediaStream) :
  In mediaStream (granted es) ->
  (_mediaStream (this (fst (run es fresh))) = Some mediaStream
   \/ In (TracksStop mediaStream) (snd (run es fresh)))
  /\ (isInactiveState (_state (this (fst (run es fresh)))) = true ->
      In (TracksStop mediaStream) (snd (run es fresh))).
Proof.
  intros Hin.
  assert (Hheld : _mediaStream (this (fst (run es fresh))) = Some mediaStream
                  \/ In (TracksStop mediaStream) (snd (run es fresh))).
  { revert Hin. induction es as [|e es IH] using rev_ind; [intros []|].
    rewrite granted_app, run_snoc. cbn [fst snd]. intros Hin.
    assert (Hs : sound (fst (run es fresh)) = true)
      by apply sound_run, sound_fresh.
    apply in_app_or in Hin as [Hold | Hnew].
    - destruct (IH Hold) as [Hh | Hstopped].
      + destruct (sound_step_held e _ Hs _ Hh) as [Hh' | Hst'];
          [left; exact Hh'|right; apply in_or_app; right; exact Hst'].
      + right. apply in_or_app. left. exact Hstopped.
    - destruct e; try contradiction Hnew.
      cbn in Hnew. destruct Hnew as [-> | []].
      destruct (sound_step_granted mediaStream _ Hs) as [Hh' | Hst'];
        [left; exact Hh'|right; apply in_or_app; right; exact Hst']. }
  split; [exact Hheld|].
  intros Hinact.
  destruct (sound_inactive _ (sound_run es fresh sound_fresh) Hinact)
    as (_ & _ & _ & Hnone).
  destruct Hheld as [Hh | Hst]; [congruence|exact Hst].
Qed.

Lemma granted_streams_are_stopped_witness :
  In (TracksStop 9)
     (snd (run [Call_start; Call_cancel; GetUserMediaSuccess 9] fresh)).
Proof.
  apply (granted_streams_are_stopped
           [Call_start; Call_cancel; GetUserMediaSuccess 9] 9).
  - cbn. left. reflexivity.
  - reflexivity.
Defined.

Lemma blocked_step e w :
  _state (this w) = Init ->
  recordTranscribeActive w = true ->
  _state (this (fst (step e w))) = Init
  /\ recordTranscribeActive (fst (step e w)) = true
  /\ requests (snd (step e w)) = 0
  /\ filter is_callback (snd (step e w)) = [].
Proof.
  break_world w. intros -> ->. destruct e; split_close; crunch; auto.
Qed.

(** X18. While another session holds the process-wide flag, a session that
    has not started cannot start: [start()] throws and requests nothing, and
    whatever else happens the session stays in Init, never asks for the
    microphone and invokes no callback. *)
Theorem second_session_cannot_start (w : world) (es : list event) :
  _state (this w) = Init ->
  recordTranscribeActive w = true ->
  handle Call_start w
  = (Throw "only one RecordTranscribe may be active at a time", w, [])
  /\ _state (this (fst (run es w))) = Init
  /\ recordTranscribeActive (fst (run es w)) = true
  /\ requests (snd (run es w)) = 0
  /\ filter is_callback (snd (run es w)) = [].
Proof.
  intros Hst Hact. split.
  { break_world w. subst. reflexivity. }
  revert w Hst Hact. induction es as [|e es IH]; intros w Hst Hact.
  - cbn. auto.
  - cbn [run]. destruct (blocked_step e w Hst Hact) as (H1 & H2 & H3 & H4).
    destruct (step e w) as [w1 out1]. cbn [fst snd] in *.
    destruct (IH w1 H1 H2) as (I1 & I2 & I3 & I4).
    destruct (run es w1) as [w2 out2]. cbn [fst snd] in *.
    rewrite requests_app, filter_app, H3, H4, I3, I4. auto.
Qed.

Lemma second_session_cannot_start_witness :
  _state (this (fst (run [Call_start; Call_stop; Call_start]
                         {| recordTranscribeActive := true;
                            this := new_RecordTranscribe |}))) = Init.
Proof.
  apply (second_session_cannot_start
           {| recordTranscribeActive := true; this := new_RecordTranscribe |}
           [Call_start; Call_stop; Call_start] eq_refl eq_refl).
Defined.

(** *** The accumulated result in closed form *)

Lemma finals_of_final rs : Forall (fun w => is_final w = true) (finals_of rs).
Proof.
  apply Forall_forall. intros w Hin. unfold finals_of in Hin.
  apply in_flat_map in Hin as (r & _ & Hin).
  apply in_map_iff in Hin as (j & <- & _). reflexivity.
Qed.

Lemma pending_of_nonfinal rs :
  Forall (fun w => is_final w = false) (pending_of rs).
Proof.
  unfold pending_of. destruct (rev rs); [constructor|apply nonfinals_map].
Qed.

Lemma merged_words rs : words (merged rs) = finals_of rs ++ pending_of rs.
Proof.
  induction rs as [|r rs IH] using rev_ind; [reflexivity|].
  unfold merged. rewrite fold_left_app. cbn [fold_left]. fold (merged rs).
  rewrite (updateResult_words _ _ (merged_ordered rs)), IH.
  rewrite resultFromResponse_words, filter_app.
  rewrite (filter_finals _ (finals_of_final rs)).
  rewrite (filter_nonfinals _ (pending_of_nonfinal rs)), app_nil_r.
  unfold finals_of, pending_of. rewrite flat_map_app, rev_unit.
  cbn [flat_map]. rewrite app_nil_r, app_assoc. reflexivity.
Qed.

Lemma messages_run rs : forall rs0 w,
  _state (this w) = Running \/ _state (this w) = Finishing ->
  _result (this w) = merged rs0 ->
  _state (this (fst (run (map (fun r => WebSocketMessage (Some r)) rs) w)))
  = _state (this w)
  /\ _result (this (fst (run (map (fun r => WebSocketMessage (Some r)) rs)
                             w)))
     = merged (rs0 ++ rs).
Proof.
  induction rs as [|r rs IH]; intros rs0 w Hst Hres; cbn [map run].
  - rewrite app_nil_r. auto.
  - pose proof (message_merges r w Hst) as Hm.
    assert (Hsame : _state (this (fst (step (WebSocketMessage (Some r)) w)))
                    = _state (this w)).
    { clear Hm Hres. break_world w.
      destruct Hst as [-> | ->]; destruct onP; reflexivity. }
    destruct (step (WebSocketMessage (Some r)) w) as [w1 out1].
    cbn [fst] in *.
    destruct (IH (rs0 ++ [r]) w1) as [IH1 IH2].
    + rewrite Hsame. exact Hst.
    + rewrite Hm, Hres. unfold merged. rewrite fold_left_app. reflexivity.
    + destruct (run (map (fun r0 => WebSocketMessage (Some r0)) rs) w1)
        as [w2 out2]. cbn [fst] in *.
      rewrite <- app_assoc in IH2. cbn [app] in IH2.
      split; [congruence|exact IH2].
Qed.

(** X19. In a running (or finishing) session whose result so far comes
    from the frames [rs0], after the frames [rs] have arrived the result's
    words are the final words of all the frames, oldest first, followed by
    the non-final words of the last frame only; the state is unchanged. *)
Theorem result_is_finals_then_last_pending
        (rs0 rs : list Wire.Response) (w : world) :
  _state (this w) = Running \/ _state (this w) = Finishing ->
  _result (this w) = merged rs0 ->
  let w' := fst (run (map (fun r => WebSocketMessage (Some r)) rs) w) in
  words (getResult (this w')) = finals_of (rs0 ++ rs) ++ pending_of (rs0 ++ rs)
  /\ _state (this w') = _state (this w).
Proof.
  intros Hst Hres w'.
  destruct (messages_run rs rs0 w Hst Hres) as [H1 H2]. fold w' in H1, H2.
  unfold getResult. rewrite H2, merged_words. auto.
Qed.

Lemma result_is_finals_then_last_pending_witness :
  let r1 := {| Wire.fw := [{| Wire.t := "a"; Wire.s := 0; Wire.d := 1 |}];
               Wire.nfw := [{| Wire.t := "b"; Wire.s := 1; Wire.d := 1 |}];
               Wire.fpt := 1; Wire.tpt := 2 |} in
  let r2 := {| Wire.fw := [];
               Wire.nfw := [{| Wire.t := "c"; Wire.s := 1; Wire.d := 2 |}];
               Wire.fpt := 1; Wire.tpt := 3 |} in
  words (getResult (this (fst (run [WebSocketMessage (Some r1);
                                    WebSocketMessage (Some r2)] running))))
  = [{| text := "a"; start_ms := 0; duration_ms := 1; is_final := true |};
     {| text := "c"; start_ms := 1; duration_ms := 2; is_final := false |}].
Proof.
  intros r1 r2.
  destruct (result_is_finals_then_last_pending
              [] [r1; r2] running (or_introl eq_refl) eq_refl) as [H _].
  exact H.
Defined.

(** X20. Whatever happens to a session, the words of its result are final
    words followed by a single run of non-final words, and a final word,
    once in the result, stays: the final words after any further events are
    the final words before, followed by new ones. *)
Theorem final_words_only_grow (before after : list event) :
  let w1 := fst (run before fresh) in
  let w2 := fst (run after w1) in
  ordered (words (getResult (this w1)))
  /\ exists more,
       filter is_final (words (getResult (this w2)))
       = filter is_final (words (getResult (this w1))) ++ more.
Proof.
  intros w1 w2. unfold getResult.
  destruct (session_result_merged before) as [rs Hrs]. fold w1 in Hrs.
  destruct (run_result after w1 rs Hrs) as [rs' Hrs']. fold w2 in Hrs'.
  rewrite Hrs, Hrs'. split; [apply merged_ordered|].
  exists (finals_of rs').
  rewrite !merged_words, !filter_app.
  rewrite !(filter_finals _ (finals_of_final _)).
  rewrite !(filter_nonfinals _ (pending_of_nonfinal _)), !app_nil_r.
  unfold finals_of. apply flat_map_app.
Qed.

(** *** How failures are reported *)

Lemma handleError_releases status message w :
  released (this (fst (exec (_handleError status message) w)))
  /\ frames (snd (exec (_handleError status message) w)) = [].
Proof. break_world w. crunch; repeat split. Qed.

Lemma handleError_full status message w :
  let w' := fst (exec (_handleError status message) w) in
  _state (this w') = Error
  /\ recordTranscribeActive w' = false
  /\ released (this w')
  /\ _result (this w') = _result (this w)
  /\ filter is_callback (snd (exec (_handleError status message) w)) =
     match _onError (this w) with
     | Some f => [CallOnError f status message]
     | None => []
     end.
Proof.
  intros w'.
  destruct (handleError_run status message w) as (_ & H1 & H2 & H3 & H4).
  destruct (handleError_releases status message w) as [H5 _].
  repeat split; try assumption; apply H5.
Qed.

(** X21. When the channel closes with a code other than 1000 while the
    session is opening the channel, running or finishing, the session ends
    in Error with everything released and the flag cleared, and the error
    callback is invoked once, with status [websocket_closed] and a message
    that spells out the code in decimal and the reason. *)
Theorem abnormal_close_reports_code (w : world) (code : N) (reason : string) :
  isWebSocketState (_state (this w)) = true ->
  (code =? 1000)%N = false ->
  let w' := fst (step (WebSocketClose code reason) w) in
  _state (this w') = Error
  /\ recordTranscribeActive w' = false
  /\ released (this w')
  /\ _result (this w') = _result (this w)
  /\ filter is_callback (snd (step (WebSocketClose code reason) w)) =
     match _onError (this w) with
     | Some f =>
         [CallOnError f "websocket_closed"
            ("WebSocket closed: code=" ++ decimal code
             ++ ", reason=" ++ reason)%string]
     | None => []
     end.
Proof.
  intros Hws Hcode. unfold step, exec, handle.
  rewrite (onWebSocketClose_eq _ _ _ Hws), Hcode.
  apply handleError_full.
Qed.

Lemma abnormal_close_reports_code_witness :
  filter is_callback (snd (step (WebSocketClose 1011 "overload") finishing))
  = [CallOnError 4 "websocket_closed"
       "WebSocket closed: code=1011, reason=overload"].
Proof.
  destruct (abnormal_close_reports_code finishing 1011 "overload"
              eq_refl eq_refl) as (_ & _ & _ & _ & H).
  exact H.
Defined.

(** X22. When the channel closes with code 1000 and a reason that is not
    the end-of-stream token, the session ends in Error and the error
    callback is told what the server said: the status and the message of a
    reason of the form [<status> message], and [other_asr_error] with the
    whole reason when the reason has no such form. *)
Theorem normal_close_reports_server_status (w : world) (reason : string) :
  isWebSocketState (_state (this w)) = true ->
  String.eqb (fst (close_report reason)) "eof" = false ->
  let w' := fst (step (WebSocketClose 1000 reason) w) in
  _state (this w') = Error
  /\ recordTranscribeActive w' = false
  /\ released (this w')
  /\ _result (this w') = _result (this w)
  /\ filter is_callback (snd (step (WebSocketClose 1000 reason) w)) =
     match _onError (this w) with
     | Some f =>
         [CallOnError f (fst (close_report reason))
                      (snd (close_report reason))]
     | None => []
     end.
Proof.
  intros Hws Hneof. unfold step, exec, handle.
  rewrite (onWebSocketClose_eq _ _ _ Hws). cbn [N.eqb Pos.eqb].
  unfold close_report in *.
  destruct (StatusMessageRegex_exec reason) as [[status message]|];
    cbn [fst snd] in *.
  - rewrite Hneof. apply handleError_full.
  - apply handleError_full.
Qed.

Lemma normal_close_reports_server_status_witness :
  filter is_callback
    (snd (step (WebSocketClose 1000 "<invalid_api_key> Bad key.") running))
  = [CallOnError 4 "invalid_api_key" "Bad key."]
  /\ filter is_callback (snd (step (WebSocketClose 1000 "bye") running))
     = [CallOnError 4 "other_asr_error" "bye"].
Proof.
  destruct (normal_close_reports_server_status
              running "<invalid_api_key> Bad key." eq_refl eq_refl)
    as (_ & _ & _ & _ & H1).
  destruct (normal_close_reports_server_status running "bye" eq_refl eq_refl)
    as (_ & _ & _ & _ & H2).
  split; [exact H1|exact H2].
Defined.

Lemma error_event_eq w :
  isWebSocketState (_state (this w)) = true ->
  step WebSocketError w
  = exec (_handleError "websocket_error" "WebSocket error occurred.") w.
Proof.
  intros Hws. unfold step, exec, handle, _onWebSocketError, bind at 1, getThis.
  rewrite Hws. cbn [negb].
  destruct (_handleError "websocket_error" "WebSocket error occurred." w)
    as [[c w2] out2].
  reflexivity.
Qed.

Lemma denied_eq w :
  _state (this w) = RequestingMedia ->
  step GetUserMediaError w
  = exec (_handleError "get_user_media_failed" "Failed to get user media.") w.
Proof.
  intros Hst.
  unfold step, exec, handle, _onGetUserMediaError, bind at 1, getThis.
  rewrite Hst. cbn [State_eqb negb].
  destruct (_handleError "get_user_media_failed"
                         "Failed to get user media." w) as [[c w2] out2].
  reflexivity.
Qed.

(** X23. A transport error is reported only while the channel matters and
    a denied microphone only while it is awaited: in OpeningWebSocket,
    Running or Finishing an error event ends the session in Error, with
    everything released, and invokes the error callback once with status
    [websocket_error]; in RequestingMedia a denial does the same with status
    [get_user_media_failed]; in every other state either event is dropped
    without any effect. *)
Theorem failures_are_reported_where_they_apply (w : world) :
  (isWebSocketState (_state (this w)) = true ->
   _state (this (fst (step WebSocketError w))) = Error
   /\ released (this (fst (step WebSocketError w)))
   /\ filter is_callback (snd (step WebSocketError w)) =
      match _onError (this w) with
      | Some f => [CallOnError f "websocket_error" "WebSocket error occurred."]
      | None => []
      end)
  /\ (isWebSocketState (_state (this w)) = false ->
      handle WebSocketError w = (Normal tt, w, []))
  /\ (_state (this w) = RequestingMedia ->
      _state (this (fst (step GetUserMediaError w))) = Error
      /\ released (this (fst (step GetUserMediaError w)))
      /\ filter is_callback (snd (step GetUserMediaError w)) =
         match _onError (this w) with
         | Some f =>
             [CallOnError f "get_user_media_failed"
                          "Failed to get user media."]
         | None => []
         end)
  /\ (_state (this w) <> RequestingMedia ->
      handle GetUserMediaError w = (Normal tt, w, [])).
Proof.
  split; [|split; [|split]].
  - intros Hws. rewrite (error_event_eq w Hws).
    destruct (handleError_full "websocket_error" "WebSocket error occurred." w)
      as (H1 & _ & H3 & _ & H5). auto.
  - intros Hws. break_world w. destruct st; try discriminate Hws; reflexivity.
  - intros Hst. rewrite (denied_eq w Hst).
    destruct (handleError_full "get_user_media_failed"
                               "Failed to get user media." w)
      as (H1 & _ & H3 & _ & H5). auto.
  - intros Hst. break_world w. destruct st; try congruence; reflexivity.
Qed.

Lemma failures_are_reported_where_they_apply_witness :
  filter is_callback (snd (step WebSocketError opening))
  = [CallOnError 4 "websocket_error" "WebSocket error occurred."]
  /\ filter is_callback (snd (step GetUserMediaError requesting))
     = [CallOnError 4 "get_user_media_failed" "Failed to get user media."]
  /\ handle GetUserMediaError running = (Normal tt, running, []).
Proof.
  destruct (failures_are_reported_where_they_apply opening)
    as (H1 & _ & _ & _).
  destruct (failures_are_reported_where_they_apply requesting)
    as (_ & _ & H3 & _).
  destruct (failures_are_reported_where_they_apply running)
    as (_ & _ & _ & H4).
  destruct (H1 eq_refl) as (_ & _ & E1).
  destruct (H3 eq_refl) as (_ & _ & E3).
  split; [exact E1|]. split; [exact E3|]. apply H4. discriminate.
Defined.

(** *** The end of capture, incoming frames, release *)

(** X24. While running, the recorder's stop event does exactly what
    [stop()] does: with the channel held, the recorder and the stream are
    released, one empty frame is sent as the end-of-audio marker, the
    session is Finishing with the channel still held, and no callback is
    invoked.  In any other state the recorder's stop event is dropped. *)
Theorem recorder_stop_acts_as_stop (w : world) :
  (_state (this w) = Running ->
   handle MediaRecorderStop w = handle Call_stop w
   /\ (_webSocket (this w) <> None ->
       let w' := fst (step MediaRecorderStop w) in
       outcome (handle MediaRecorderStop) w = Normal tt
       /\ _state (this w') = Finishing
       /\ _webSocket (this w') = _webSocket (this w)
       /\ _mediaRecorder (this w') = None
       /\ _mediaStream (this w') = None
       /\ frames (snd (step MediaRecorderStop w)) = [EmptyFrame]
       /\ filter is_callback (snd (step MediaRecorderStop w)) = []))
  /\ (_state (this w) <> Running ->
      handle MediaRecorderStop w = (Normal tt, w, [])).
Proof.
  break_world w. split.
  - intros ->. split; [reflexivity|].
    intros Hws. destruct ws as [s|]; [clear Hws|congruence].
    destruct mr as [[? []]|], ms; vm_compute; repeat split.
  - intros Hst. destruct st; try congruence; reflexivity.
Qed.

Lemma recorder_stop_acts_as_stop_witness :
  _state (this (fst (step MediaRecorderStop running))) = Finishing
  /\ frames (snd (step MediaRecorderStop running)) = [EmptyFrame]
  /\ handle MediaRecorderStop finishing = (Normal tt, finishing, []).
Proof.
  destruct (recorder_stop_acts_as_stop running) as [Hrun _].
  destruct (recorder_stop_acts_as_stop finishing) as [_ Hfin].
  destruct (Hrun eq_refl) as [_ Hgo].
  destruct Hgo as (_ & H1 & _ & _ & _ & H2 & _); [discriminate|].
  split; [exact H1|]. split; [exact H2|]. apply Hfin. discriminate.
Defined.



(** X26. Releasing is idempotent and touches nothing else: whatever the
    session holds, [_closeResources] returns normally, leaves the session
    holding no channel, recorder or stream, keeps its state and result and
    invokes no callback; it closes the channel, terminates the recorder's
    worker and stops the stream exactly when they were held, and run again
    right after it does nothing at all. *)
Theorem release_is_idempotent (w : world) :
  let w1 := fst (exec _closeResources w) in
  let out1 := snd (exec _closeResources w) in
  outcome _closeResources w = Normal tt
  /\ released (this w1)
  /\ _state (this w1) = _state (this w)
  /\ _result (this w1) = _result (this w)
  /\ filter is_callback out1 = []
  /\ (In WsClose out1 <-> _webSocket (this w) <> None)
  /\ (In RecorderTerminateWorker out1 <-> _mediaRecorder (this w) <> None)
  /\ (forall mediaStream,
        In (TracksStop mediaStream) out1
        <-> _mediaStream (this w) = Some mediaStream)
  /\ _closeResources w1 = (Normal tt, w1, []).
Proof.
  break_world w.
  destruct ws, mr as [[? []]|], ms; vm_compute;
    repeat split; try reflexivity; try congruence; try tauto;
    intros; try discriminate;
    repeat match goal with
           | H : _ \/ _ |- _ => destruct H
           | H : False |- _ => destruct H
           | H : _ = _ |- _ => first [discriminate H | injection H as <-]
           end;
    auto 10; try congruence.
Qed.

(** X27. The reasons the status pattern accepts are exactly those made of
    [<], a status of one or more letters, digits, underscores or hyphens,
    [>], any number of spaces, and a message that is either empty or begins
    with a character other than a space and has no line terminator after
    that character; the groups returned are that status and that message.
    A reason made of status characters only, without the angle brackets, is
    never accepted. *)
Theorem status_pattern_grammar (reason status message : string) :
  (StatusMessageRegex_exec reason = Some (status, message)
   <-> StatusMessage_shape reason status message)
  /\ (all_chars is_token_char reason -> StatusMessageRegex_exec reason = None).
Proof.
  split; [apply StatusMessageRegex_exec_shape|].
  intros Hall. destruct reason as [|c rest]; [reflexivity|].
  apply all_chars_cons in Hall as [Hc _].
  unfold StatusMessageRegex_exec.
  destruct (Ascii.eqb c "<") eqn:E; [|reflexivity].
  apply Ascii.eqb_eq in E. subst c. discriminate Hc.
Qed.

Lemma status_pattern_grammar_witness :
  StatusMessageRegex_exec "server_error" = None.
Proof.
  apply (status_pattern_grammar "server_error" "" "").
  repeat constructor.
Defined.
End WebVoiceFacts.
